(** * Merkle tree over hashed data chunks: model of [merkle_tree.py]

    The development follows the Python module: the SHA-256 digest of
    [hashlib], the [Node] objects living in a store with identity and
    mutable fields, the bottom-up construction [build_parents], the upward
    walk [generate_audit_trail] with its shared default list, and the
    independent verifier [merkle_proof]. *)

From Stdlib Require Import ZArith String Ascii List Lia.
From stdpp Require Import base list sets strings.
Import ListNotations.

(** ** hashlib: SHA-256 over byte strings, rendered as lower-case hex *)

Module Hashlib.
Local Open Scope Z_scope.

Definition mask32 : Z := 0xFFFFFFFF.
Definition w32 (x : Z) : Z := Z.land x mask32.
Definition add32 (x y : Z) : Z := w32 (x + y).
Definition rotr (n x : Z) : Z :=
  Z.lor (Z.shiftr x n) (w32 (Z.shiftl x (32 - n))).
Definition not32 (x : Z) : Z := Z.lxor x mask32.

Definition Ch (x y z : Z) : Z := Z.lxor (Z.land x y) (Z.land (not32 x) z).
Definition Maj (x y z : Z) : Z :=
  Z.lxor (Z.lxor (Z.land x y) (Z.land x z)) (Z.land y z).
Definition Sigma0 (x : Z) : Z := Z.lxor (Z.lxor (rotr 2 x) (rotr 13 x)) (rotr 22 x).
Definition Sigma1 (x : Z) : Z := Z.lxor (Z.lxor (rotr 6 x) (rotr 11 x)) (rotr 25 x).
Definition sigma0 (x : Z) : Z := Z.lxor (Z.lxor (rotr 7 x) (rotr 18 x)) (Z.shiftr x 3).
Definition sigma1 (x : Z) : Z := Z.lxor (Z.lxor (rotr 17 x) (rotr 19 x)) (Z.shiftr x 10).

(** The round constants are the leading 32 fractional bits of the cube
    roots of the first 64 primes, the initial state those of the square
    roots of the first 8. *)
Definition primes64 : list Z :=
  [2; 3; 5; 7; 11; 13; 17; 19; 23; 29; 31; 37; 41; 43; 47; 53;
   59; 61; 67; 71; 73; 79; 83; 89; 97; 101; 103; 107; 109; 113; 127; 131;
   137; 139; 149; 151; 157; 163; 167; 173; 179; 181; 191; 193; 197; 199;
   211; 223; 227; 229; 233; 239; 241; 251; 257; 263; 269; 271; 277; 281;
   283; 293; 307; 311].

Fixpoint icbrt_bits (b : nat) (n r : Z) : Z :=
  let r' := r + 2 ^ Z.of_nat b in
  let r := if r' * r' * r' <=? n then r' else r in
  match b with
  | O => r
  | S b' => icbrt_bits b' n r
  end.
Definition icbrt (n : Z) : Z := icbrt_bits 40 n 0.

Definition K : list Z :=
  Eval vm_compute in map (fun p => w32 (icbrt (p * 2 ^ 96))) primes64.
Definition H0 : list Z :=
  Eval vm_compute in map (fun p => w32 (Z.sqrt (p * 2 ^ 64))) (firstn 8 primes64).

Definition byte_of (c : ascii) : Z := Z.of_N (N_of_ascii c).

Fixpoint bytes_of (s : string) : list Z :=
  match s with
  | EmptyString => []
  | String c s' => byte_of c :: bytes_of s'
  end.

Definition be_bytes (n : nat) (x : Z) : list Z :=
  map (fun i => Z.land (Z.shiftr x (8 * Z.of_nat i)) 0xFF) (rev (seq 0 n)).

Definition pad (msg : list Z) : list Z :=
  let len := Z.of_nat (length msg) in
  let zeros := Z.to_nat ((55 - len) mod 64) in
  msg ++ [0x80] ++ repeat 0 zeros ++ be_bytes 8 (8 * len).

Definition be_word (bs : list Z) : Z :=
  fold_left (fun acc b => Z.lor (Z.shiftl acc 8) b) bs 0.

Fixpoint groups {A} (fuel k : nat) (l : list A) : list (list A) :=
  match fuel, l with
  | S fuel', _ :: _ => firstn k l :: groups fuel' k (skipn k l)
  | _, _ => []
  end.

(** Message schedule: [ws] holds the words so far, most recent first. *)
Fixpoint schedule (n : nat) (ws : list Z) : list Z :=
  match n with
  | O => ws
  | S n' =>
      let w := add32 (add32 (sigma1 (nth 1 ws 0)) (nth 6 ws 0))
                     (add32 (sigma0 (nth 14 ws 0)) (nth 15 ws 0)) in
      schedule n' (w :: ws)
  end.

Record regs := Regs { ra : Z; rb : Z; rc : Z; rd : Z; re : Z; rf : Z; rg : Z; rh : Z }.

Definition round (s : regs) (kw : Z * Z) : regs :=
  let '(k, w) := kw in
  let t1 := add32 (add32 (add32 (rh s) (Sigma1 (re s))) (add32 (Ch (re s) (rf s) (rg s)) k)) w in
  let t2 := add32 (Sigma0 (ra s)) (Maj (ra s) (rb s) (rc s)) in
  Regs (add32 t1 t2) (ra s) (rb s) (rc s) (add32 (rd s) t1) (re s) (rf s) (rg s).

Definition regs_of (l : list Z) : regs :=
  Regs (nth 0 l 0) (nth 1 l 0) (nth 2 l 0) (nth 3 l 0)
       (nth 4 l 0) (nth 5 l 0) (nth 6 l 0) (nth 7 l 0).
Definition regs_list (s : regs) : list Z :=
  [ra s; rb s; rc s; rd s; re s; rf s; rg s; rh s].

Definition compress (h : list Z) (block : list Z) : list Z :=
  let w16 := map be_word (groups 16 4 block) in
  let ws := rev (schedule 48 (rev w16)) in
  let s := fold_left round (combine K ws) (regs_of h) in
  map (fun p => add32 (fst p) (snd p)) (combine h (regs_list s)).

Definition digest_words (msg : list Z) : list Z :=
  let p := pad msg in
  fold_left compress (groups (length p) 64 p) H0.

Definition hex_digit (d : Z) : ascii :=
  ascii_of_N (Z.to_N (if d <? 10 then 48 + d else 87 + d)).

Definition hex_of_word (x : Z) : string :=
  fold_right (fun i s => String (hex_digit (Z.land (Z.shiftr x (4 * Z.of_nat i)) 0xF)) s)
             EmptyString (rev (seq 0 8)).

(** [sha256(data).hexdigest()] *)
Definition sha256_hexdigest (data : string) : string :=
  fold_right (fun w s => String.append (hex_of_word w) s) EmptyString
             (digest_words (bytes_of data)).
End Hashlib.

(** ** The Python values of the module *)

(** [class Branch(enum.Enum)] *)
Module Branch.
Inductive t := left | right.
End Branch.

(** The second component of a trail item, [item[1]]: [None] on the closing
    element, a [Branch] member on a sibling step.  A trail handed to the
    verifier is an ordinary Python list, so it may carry any other object
    there; [OtherMarker] stands for such an object. *)
Inductive marker :=
| NoneMarker
| BranchMarker (b : Branch.t)
| OtherMarker (v : string).

Definition item : Type := string * marker.

(** Objects have identity: a [Node] is referred to by its address in the
    store, and [==] on nodes (the class defines no [__eq__]) compares
    addresses. *)
Abbreviation addr := nat.

(** [class Node]; [None] in a reference field is [None] here. *)
Record Node := mkNode {
  hash_value : string;
  data_value : option string;
  parent : option addr;
  left_child : option addr;
  right_child : option addr
}.

Definition set_parent (p : addr) (n : Node) : Node :=
  mkNode (hash_value n) (data_value n) (Some p) (left_child n) (right_child n).
Definition set_left_child (c : addr) (n : Node) : Node :=
  mkNode (hash_value n) (data_value n) (parent n) (Some c) (right_child n).
Definition set_right_child (c : addr) (n : Node) : Node :=
  mkNode (hash_value n) (data_value n) (parent n) (left_child n) (Some c).

(** [Node.is_leaf] *)
Definition is_leaf (n : Node) : bool :=
  match left_child n, right_child n with
  | None, None => true
  | _, _ => false
  end.

(** [class MerkleTree]: the object is never mutated after [__init__]. *)
Record MerkleTree := mkMerkleTree {
  root_node : addr;
  leaves : list addr
}.

(** The interpreter state: the [Node] objects and the list objects that
    trails are accumulated in. *)
Record world := World {
  nodes : list Node;
  lists : list (list item)
}.

(** The list object that the default [trail=[]] of [generate_audit_trail]
    is bound to.  Python evaluates the default once, when the [def] is
    executed, so there is one such object for the life of the module. *)
Definition default_trail : addr := 0.

(** The state right after the class definitions have been executed. *)
Definition init_world : world := World [] [[]].

(** ** Exceptions and the state monad of the interpreter *)

Inductive exn := RecursionError | AttributeError | TypeError.

Definition exn_name (e : exn) : string :=
  match e with
  | RecursionError => "RecursionError"
  | AttributeError => "AttributeError"
  | TypeError => "TypeError"
  end.

Inductive outcome (A : Type) :=
| Return (a : A)
| Raise (e : exn).
Arguments Return {A} a.
Arguments Raise {A} e.

Definition M (A : Type) : Type := world -> outcome A * world.

Definition ret {A} (a : A) : M A := fun w => (Return a, w).
Definition raise {A} (e : exn) : M A := fun w => (Raise e, w).
Definition bind {A B} (m : M A) (k : A -> M B) : M B :=
  fun w =>
    match m w with
    | (Return a, w') => k a w'
    | (Raise e, w') => (Raise e, w')
    end.

Notation "x <- m ;; k" := (bind m (fun x => k))
  (at level 100, m at next level, right associativity).
Notation "m ;;; k" := (bind m (fun _ => k))
  (at level 100, right associativity).

(** [Node(hash_value, data_value)]: a new object at a fresh address. *)
Definition new_Node (h : string) (d : option string) : M addr :=
  fun w => (Return (length (nodes w)),
            World (nodes w ++ [mkNode h d None None None]) (lists w)).

(** Reading the attributes of the object a reference denotes.  On [None]
    Python raises [AttributeError]; an address outside the store denotes no
    object either (allocation never produces one) and raises the same. *)
Definition attr (r : option addr) : M Node :=
  fun w =>
    match r with
    | Some a =>
        match nodes w !! a with
        | Some n => (Return n, w)
        | None => (Raise AttributeError, w)
        end
    | None => (Raise AttributeError, w)
    end.

(** Assigning to an attribute of the object at [a]. *)
Definition assign (a : addr) (f : Node -> Node) : M unit :=
  fun w =>
    match nodes w !! a with
    | Some n => (Return tt, World (<[a := f n]> (nodes w)) (lists w))
    | None => (Raise AttributeError, w)
    end.

(** [trail.append(x)] on the list object at [t]. *)
Definition list_append (t : addr) (x : item) : M unit :=
  fun w =>
    match lists w !! t with
    | Some l => (Return tt, World (nodes w) (<[t := l ++ [x]]> (lists w)))
    | None => (Raise AttributeError, w)
    end.

(** ** The program *)

(** The digest primitive of [hashlib], [sha256(bytes).hexdigest()]. *)
Class Sha256 := hexdigest : string -> string.

Section MerkleTree.
Context {sha : Sha256}.

(** [compute_hash]: a Python [str] is represented by its UTF-8 bytes, so
    [data.encode('utf-8')] is the identity here. *)
Definition compute_hash (data : string) : string := hexdigest data.

(** [MerkleTree.build_leaves] *)
Fixpoint build_leaves (data_chunks : list string) : M (list addr) :=
  match data_chunks with
  | [] => ret []
  | chunk :: rest =>
      node <- new_Node (compute_hash chunk) (Some chunk) ;;
      leaves <- build_leaves rest ;;
      ret (node :: leaves)
  end.

(** The body of the [while] loop of [build_parents] for one pair. *)
Definition make_parent (left_child right_child : addr) : M addr :=
  l <- attr (Some left_child) ;;
  r <- attr (Some right_child) ;;
  parent <- new_Node (compute_hash (hash_value l ++ hash_value r)) None ;;
  assign parent (set_left_child left_child) ;;;
  assign parent (set_right_child right_child) ;;;
  assign left_child (set_parent parent) ;;;
  assign right_child (set_parent parent) ;;;
  ret parent.

(** The [while i < num_leaves] loop; the argument is [leaves[i:]], and
    the result lists the parents appended from there on.  With one node
    left, [i + 1 < num_leaves] fails and the node is its own partner. *)
Fixpoint pair_up (rest : list addr) : M (list addr) :=
  match rest with
  | [] => ret []
  | [last] =>
      parent <- make_parent last last ;;
      ret [parent]
  | l :: r :: rest' =>
      parent <- make_parent l r ;;
      parents <- pair_up rest' ;;
      ret (parent :: parents)
  end.

(** [MerkleTree.build_parents].  [depth] is the number of frames the
    interpreter still allows; Python raises [RecursionError] when a call
    would exceed the limit. *)
Fixpoint build_parents (depth : nat) (leaves : list addr) : M addr :=
  match depth with
  | O => raise RecursionError
  | S depth' =>
      match leaves with
      | [only] => ret only
      | _ =>
          parents <- pair_up leaves ;;
          build_parents depth' parents
      end
  end.

(** [MerkleTree.build_tree] *)
Definition build_tree (depth : nat) (data_chunks : list string) : M MerkleTree :=
  leaves <- build_leaves data_chunks ;;
  root_node <- build_parents depth leaves ;;
  ret (mkMerkleTree root_node leaves).

(** [MerkleTree.generate_audit_trail(self, node, trail)]; [trail] is the
    address of the list object appended to, which is also what the
    method returns. *)
Fixpoint generate_audit_trail (depth : nat) (self : MerkleTree)
    (node : addr) (trail : addr) : M addr :=
  match depth with
  | O => raise RecursionError
  | S depth' =>
      if Nat.eqb (root_node self) node then
        root <- attr (Some (root_node self)) ;;
        list_append trail (hash_value root, NoneMarker) ;;;
        ret trail
      else
        n <- attr (Some node) ;;
        p <- attr (parent n) ;;
        (if bool_decide (left_child p = Some node) then
           sibling <- attr (right_child p) ;;
           list_append trail (hash_value sibling, BranchMarker Branch.right)
         else
           sibling <- attr (left_child p) ;;
           list_append trail (hash_value sibling, BranchMarker Branch.left)) ;;;
        match parent n with
        | Some up => generate_audit_trail depth' self up trail
        | None => raise AttributeError
        end
  end.

(** [MerkleTree.get_audit_trail]: the [for] loop over [self.leaves]; the
    call passes no [trail], so the default list object is used. *)
Fixpoint get_audit_trail_from (depth : nat) (self : MerkleTree)
    (rest : list addr) (target_leaf_hash : string) : M (option addr) :=
  match rest with
  | [] => ret None
  | leaf :: rest' =>
      n <- attr (Some leaf) ;;
      if String.eqb (hash_value n) target_leaf_hash then
        trail <- generate_audit_trail depth self leaf default_trail ;;
        ret (Some trail)
      else get_audit_trail_from depth self rest' target_leaf_hash
  end.

Definition get_audit_trail (depth : nat) (self : MerkleTree)
    (target_leaf_hash : string) : M (option addr) :=
  get_audit_trail_from depth self (leaves self) target_leaf_hash.

(** One iteration of the [for] loop of [merkle_proof]: every marker that
    is not [Branch.left] takes the [else] branch. *)
Definition proof_step (current_hash : string) (it : item) : string :=
  match snd it with
  | BranchMarker Branch.left => compute_hash (fst it ++ current_hash)
  | _ => compute_hash (current_hash ++ fst it)
  end.

(** [merkle_proof(root_hash, leaf_hash, trail)].  [trail] is the Python
    value passed: [None] (what [get_audit_trail] returns for an unknown
    hash, on which [trail[:-1]] raises [TypeError]) or the contents of a
    list.  [trail[:-1]] is [removelast]: all but the last element, and
    empty for the empty list. *)
Definition merkle_proof (root_hash leaf_hash : string)
    (trail : option (list item)) : outcome bool :=
  match trail with
  | None => Raise TypeError
  | Some items =>
      Return (String.eqb (fold_left proof_step (removelast items) leaf_hash) root_hash)
  end.

End MerkleTree.

(** ** The functions of the module outside the classes *)

(** The characters [str.split()] splits at, among the ASCII ones: tab to
    carriage return, the four separators 28 to 31, and the space.  A text
    is represented by its UTF-8 bytes; a byte above 127 is taken to belong
    to a character that is not white space. *)
Definition is_space (c : ascii) : bool :=
  let n := nat_of_ascii c in
  ((9 <=? n) && (n <=? 13)) || ((28 <=? n) && (n <=? 32)).

(** The scan of [str.split()]: [word] is the run of characters read since
    the last white space. *)
Fixpoint split_from (word : string) (data : string) : list string :=
  match data with
  | EmptyString => if String.eqb word "" then [] else [word]
  | String c rest =>
      if is_space c then
        if String.eqb word "" then split_from "" rest
        else word :: split_from "" rest
      else split_from (word ++ String c "") rest
  end.

(** [chunk_data] *)
Definition chunk_data (data : string) : list string := split_from "" data.

(** [' ' * indent] *)
Fixpoint spaces (indent : nat) : string :=
  match indent with
  | O => ""
  | S k => String " " (spaces k)
  end.

(** [print_tree(node, indent)] over the store [σ], which it only reads:
    the lines printed, in order, and how the call ends.  [node] is [None]
    or a reference; a leaf without payload makes the concatenation raise
    [TypeError]; what was printed before an exception stays printed. *)
Fixpoint print_tree (depth : nat) (σ : list Node) (node : option addr)
    (indent : nat) : list string * outcome unit :=
  match depth with
  | O => ([], Raise RecursionError)
  | S depth' =>
      match node with
      | None => ([], Return tt)
      | Some a =>
          match σ !! a with
          | None => ([], Raise AttributeError)
          | Some n =>
              let line :=
                if is_leaf n then
                  match data_value n with
                  | Some d => Return (spaces indent ++ d ++ " - " ++ hash_value n)%string
                  | None => Raise TypeError
                  end
                else Return (spaces indent ++ hash_value n)%string in
              match line with
              | Raise e => ([], Raise e)
              | Return l =>
                  match print_tree depth' σ (left_child n) (indent + 2) with
                  | (out1, Raise e) => (l :: out1, Raise e)
                  | (out1, Return _) =>
                      let (out2, r) := print_tree depth' σ (right_child n) (indent + 2) in
                      (l :: out1 ++ out2, r)
                  end
              end
          end
      end
  end.

(** ** Notions the properties are stated with *)

(** A text of ASCII characters only; on such a text the bytes are the
    characters and [is_space] is exactly the test of [str.split()]. *)
Fixpoint ascii_only (s : string) : bool :=
  match s with
  | EmptyString => true
  | String c rest => (nat_of_ascii c <? 128) && ascii_only rest
  end.

(** No white space in a string. *)
Fixpoint space_free (s : string) : bool :=
  match s with
  | EmptyString => true
  | String c rest => negb (is_space c) && space_free rest
  end.

(** Only white space in a string. *)
Fixpoint blank (s : string) : bool :=
  match s with
  | EmptyString => true
  | String c rest => is_space c && blank rest
  end.

(** A word as [split] returns them: not empty and without white space. *)
Definition is_word (s : string) : bool := negb (String.eqb s "") && space_free s.

(** [' '.join(words)] *)
Fixpoint join_spaces (words : list string) : string :=
  match words with
  | [] => ""
  | [w] => w
  | w :: rest => w ++ " " ++ join_spaces rest
  end.


Section Notions.
Context {sha : Sha256}.

(** The node a new parent is created as, once its children are set. *)
Definition parent_of (l r : addr) (ln rn : Node) : Node :=
  mkNode (compute_hash (hash_value ln ++ hash_value rn)) None None (Some l) (Some r).

(** The store after one pass through the loop body. *)
Definition link_store (σ : list Node) (l r : addr) (ln rn : Node) : list Node :=
  <[r := set_parent (length σ) rn]> (<[l := set_parent (length σ) ln]> σ)
    ++ [parent_of l r ln rn].

(** Two states of one object that differ at most in [parent]. *)
Definition same_but_parent (n n' : Node) : Prop :=
  hash_value n' = hash_value n /\ data_value n' = data_value n /\
  left_child n' = left_child n /\ right_child n' = right_child n.

(** [frame T σ σ']: going from [σ] to [σ'] every object keeps its hash,
    payload and children, and outside [T] also its parent. *)
Definition frame (T : list addr) (σ σ' : list Node) : Prop :=
  length σ <= length σ' /\
  forall a n, σ !! a = Some n ->
    exists n', σ' !! a = Some n' /\ same_but_parent n n' /\ (a ∉ T -> n' = n).

(** [linked σ p l r]: in [σ] the object [p] has [l] and [r] as children and
    the digest of their hashes, in that order, as hash, and both refer to
    [p] as parent. *)
Definition linked (σ : list Node) (p l r : addr) : Prop :=
  exists pn ln rn,
    σ !! p = Some pn /\ σ !! l = Some ln /\ σ !! r = Some rn /\
    left_child pn = Some l /\ right_child pn = Some r /\
    hash_value pn = compute_hash (hash_value ln ++ hash_value rn) /\
    parent ln = Some p /\ parent rn = Some p.

(** [paired σ lv ps]: [ps] are the parents of the level [lv], two nodes
    to a parent from the left, a node left over being both children. *)
Inductive paired (σ : list Node) : list addr -> list addr -> Prop :=
| paired_nil : paired σ [] []
| paired_one l p : linked σ p l l -> paired σ [l] [p]
| paired_two l r rest p ps :
    linked σ p l r -> paired σ rest ps -> paired σ (l :: r :: rest) (p :: ps).

(** The number of parents of a level of [n] nodes. *)
Definition half_up (n : nat) : nat := Nat.div2 (S n).

(** [tower σ root lv h]: [lv] is a level of the tree rooted at [root],
    [h] levels below it. *)
Inductive tower (σ : list Node) (root : addr) : list addr -> nat -> Prop :=
| tower_top rn : σ !! root = Some rn -> tower σ root [root] 0
| tower_up lv ps h :
    NoDup lv -> root ∉ lv -> paired σ lv ps -> tower σ root ps h ->
    tower σ root lv (S h).

(** A trail element that names a sibling: its marker is a [Branch]. *)
Definition sibling_step (it : item) : Prop := exists b, snd it = BranchMarker b.

(** The object [build_leaves] creates for a chunk. *)
Definition leaf_of (chunk : string) : Node :=
  mkNode (compute_hash chunk) (Some chunk) None None None.

(** The digest has no two inputs with the same output. *)
Definition collision_free : Prop :=
  forall x y : string, hexdigest x = hexdigest y -> x = y.

(** Any marker but [Branch.left] is handled as [Branch.right]. *)
Definition as_handled (it : item) : item :=
  match snd it with
  | BranchMarker Branch.left => it
  | _ => (fst it, BranchMarker Branch.right)
  end.

(** The recomputation as the specification words it: from the leaf hash,
    over the sibling steps in order, a [LEFT] step hashes sibling then
    current, a [RIGHT] step current then sibling. *)
Fixpoint recompute (current : string) (steps : list (string * Branch.t)) : string :=
  match steps with
  | [] => current
  | (sibling, Branch.left) :: rest => recompute (compute_hash (sibling ++ current)) rest
  | (sibling, Branch.right) :: rest => recompute (compute_hash (current ++ sibling)) rest
  end.

(** A step of the specification as the trail element the code reads. *)
Definition step_item (s : string * Branch.t) : item := (fst s, BranchMarker (snd s)).

(** The hashes of the level above a level with hashes [hs]: the digest
    of each pair from the left, of a hash left over with itself. *)
Fixpoint pair_hashes (hs : list string) : list string :=
  match hs with
  | [] => []
  | [h] => [compute_hash (h ++ h)]
  | h1 :: h2 :: rest => compute_hash (h1 ++ h2) :: pair_hashes rest
  end.

(** The root hash as a function of the leaf hashes alone: levels are
    hashed upwards until one hash is left, within [depth] levels. *)
Fixpoint merkle_root (depth : nat) (hs : list string) : option string :=
  match depth with
  | O => None
  | S depth' =>
      match hs with
      | [h] => Some h
      | _ => merkle_root depth' (pair_hashes hs)
      end
  end.

(** [hash_is σ a h]: the object at [a] carries the hash [h]. *)
Definition hash_is (σ : list Node) (a : addr) (h : string) : Prop :=
  hash_value <$> σ !! a = Some h.

(** An object as [build_parents] leaves a parent that has not been given a
    parent itself: no payload, no parent, both children set. *)
Definition top_parent (σ : list Node) (n : Node) : Prop :=
  parent n = None /\ data_value n = None /\ is_leaf n = false /\
  exists l r ln rn,
    left_child n = Some l /\ right_child n = Some r /\
    σ !! l = Some ln /\ σ !! r = Some rn /\
    hash_value n = compute_hash (hash_value ln ++ hash_value rn).

(** [only_appended t w w']: from [w] to [w'] no [Node] changed and no list
    object but the one at [t], which kept its elements and got [more]
    behind them. *)
Definition only_appended (t : addr) (more : list item) (w w' : world) : Prop :=
  nodes w' = nodes w /\
  forall i,
    lists w' !! i =
      if decide (i = t) then (fun l => l ++ more) <$> lists w !! i
      else lists w !! i.

(** [stack σ b lv j]: below every node of the level [lv] hangs a full
    tree of height [j]: [j] times the level is the parents of a level
    below, down to a level of leaves with a payload.  The nodes of the
    levels below [lv] lie at addresses under [b]. *)
Inductive stack (σ : list Node) : nat -> list addr -> nat -> Prop :=
| stack_leaves b lv :
    (forall a, a ∈ lv ->
       exists n d, σ !! a = Some n /\ is_leaf n = true /\ data_value n = Some d) ->
    stack σ b lv 0
| stack_up b b' lv ps j :
    paired σ lv ps -> stack σ b lv j ->
    (forall a, a ∈ lv -> a < b') -> b <= b' ->
    stack σ b' ps (S j).

(** The line [print_tree] prints for a node that is not a leaf, or is a
    leaf with a payload. *)
Definition line_of (indent : nat) (n : Node) : string :=
  if is_leaf n then spaces indent ++ default "" (data_value n) ++ " - " ++ hash_value n
  else spaces indent ++ hash_value n.


End Notions.

(** ** The module as it is run: SHA-256, and the data of its script *)

(** [hashlib.sha256] as the digest primitive. *)
Definition hashlib_sha256 : Sha256 := Hashlib.sha256_hexdigest.

(** A digest without collisions, to instantiate [collision_free]: the
    input itself. *)
Definition verbatim_digest : Sha256 := fun data => data.

(** The interpreter's default recursion limit. *)
Definition recursion_limit : nat := 1000.

(** The chunks of the sentence the module builds its tree from. *)
Definition demo_chunks : list string :=
  ["The"; "quick"; "brown"; "fox"; "jumps"; "over"; "the"; "lazy"; "dog";
   "who"; "was"; "sleeping"; "under"; "the"; "oak"; "tree"]%string.

(** [trusted_root_hash] of the module. *)
Definition trusted_root_hash : string :=
  "bfddffb24e5f62ca7b157da0d88ed012545de73e1d3a5a5cc12838259cdc8109".

(** The closing element test of the specification: the marker is [None]. *)
Definition is_closing (it : item) : bool :=
  match snd it with
  | NoneMarker => true
  | _ => false
  end.

(** The markers the specification recognizes: left, right and [None]. *)
Definition recognized (it : item) : bool :=
  match snd it with
  | OtherMarker _ => false
  | _ => true
  end.

(** The shape the specification expects of a trail: a closing element
    last, and recognized markers only. *)
Definition trail_shape_ok (items : list item) : bool :=
  match last items with
  | Some it => is_closing it && forallb recognized items
  | None => false
  end.

(** [data] of the script. *)
Definition script_data : string :=
  "The quick brown fox jumps over the lazy dog who was sleeping under the oak tree".

(** What the script at the end of the module does to the state when the
    module is loaded: it builds the tree over the chunks of [data] and
    queries the trail of "brown" once (printing and the two calls of
    [merkle_proof] change nothing). *)
Definition module_script : M (option addr) :=
  merkle_tree <- build_tree (sha := hashlib_sha256) recursion_limit (chunk_data script_data) ;;
  get_audit_trail recursion_limit merkle_tree
    (compute_hash (sha := hashlib_sha256) "brown").

(** The state a program finds after [import merkle_tree]: the 31 nodes of
    the script's tree, and the default trail list holding the five
    elements of the trail of "brown". *)
Definition after_import : world :=
  Eval vm_compute in snd (module_script init_world).

(** The store holding the three leaves of a, b, c, before any pairing. *)
Definition abc_leaves : world :=
  World (map (leaf_of (sha := hashlib_sha256)) ["a"; "b"; "c"]%string) [[]].

(** ** Known answers of the digest *)

Example sha256_empty :
  Hashlib.sha256_hexdigest "" =
    "e3b0c44298fc1c149afbf4c8996fb92427ae41e4649b934ca495991b7852b855"%string.
Proof. vm_compute. reflexivity. Qed.

Example sha256_abc :
  Hashlib.sha256_hexdigest "abc" =
    "ba7816bf8f01cfea414140de5dae2223b00361a396177a9cb410ff61f20015ad"%string.
Proof. vm_compute. reflexivity. Qed.

(** A message longer than one block (56 bytes, so padding spills over). *)
Example sha256_two_blocks :
  Hashlib.sha256_hexdigest "abcdbcdecdefdefgefghfghighijhijkijkljklmklmnlmnomnopnopq" =
    "248d6a61d20638b8e5c026930c3e6039a33ce45964ff2167f6ecedd419db06c1"%string.
Proof. vm_compute. reflexivity. Qed.

(** ** Facts about stores *)

Lemma lookup_snoc_new (σ : list Node) (n : Node) :
  (σ ++ [n]) !! length σ = Some n.
Proof. rewrite lookup_app_r by lia. by rewrite Nat.sub_diag. Qed.

Lemma lookup_snoc_old (σ : list Node) (n m : Node) (a : addr) :
  σ !! a = Some m -> (σ ++ [n]) !! a = Some m.
Proof. intros Ha. by apply lookup_app_l_Some. Qed.

Lemma insert_snoc_new (σ : list Node) (n m : Node) :
  <[length σ := m]> (σ ++ [n]) = σ ++ [m].
Proof. rewrite insert_app_r_alt by lia. by rewrite Nat.sub_diag. Qed.

Lemma insert_snoc_old (σ : list Node) (n m : Node) (a : addr) :
  a < length σ -> <[a := m]> (σ ++ [n]) = <[a := m]> σ ++ [n].
Proof. intros Ha. by rewrite insert_app_l. Qed.

Section Proofs.
Context {sha : Sha256}.

Lemma bind_run {A B} (m : M A) (k : A -> M B) (w w' : world) (a : A) :
  m w = (Return a, w') -> bind m k w = k a w'.
Proof. intros E. unfold bind. by rewrite E. Qed.

Lemma bind_raise {A B} (m : M A) (k : A -> M B) (w w' : world) (e : exn) :
  m w = (Raise e, w') -> bind m k w = (Raise e, w').
Proof. intros E. unfold bind. by rewrite E. Qed.

Lemma attr_run (w : world) (a : addr) (n : Node) :
  nodes w !! a = Some n -> attr (Some a) w = (Return n, w).
Proof. intros E. unfold attr. by rewrite E. Qed.

Lemma make_parent_run (w : world) (l r : addr) (ln rn : Node) :
  nodes w !! l = Some ln ->
  nodes w !! r = Some rn ->
  make_parent l r w =
    (Return (length (nodes w)), World (link_store (nodes w) l r ln rn) (lists w)).
Proof.
  intros Hl Hr.
  assert (l < length (nodes w)) as Hll by (by eapply lookup_lt_Some).
  assert (r < length (nodes w)) as Hrl by (by eapply lookup_lt_Some).
  unfold make_parent.
  rewrite (bind_run _ _ _ _ _ (attr_run _ _ _ Hl)).
  rewrite (bind_run _ _ _ _ _ (attr_run _ _ _ Hr)).
  unfold bind, new_Node, assign, ret. simpl.
  rewrite lookup_snoc_new. simpl.
  rewrite insert_snoc_new, lookup_snoc_new. simpl.
  rewrite insert_snoc_new.
  erewrite lookup_snoc_old by eassumption. simpl.
  rewrite insert_snoc_old by done.
  unfold link_store, parent_of, set_left_child, set_right_child. simpl.
  destruct (decide (l = r)) as [-> | Hne].
  - assert (ln = rn) as -> by congruence.
    erewrite lookup_snoc_old by (by apply list_lookup_insert_eq). simpl.
    rewrite insert_snoc_old by (by rewrite length_insert).
    rewrite !list_insert_insert_eq. done.
  - erewrite lookup_snoc_old
      by (rewrite list_lookup_insert_ne by done; eassumption).
    simpl. rewrite insert_snoc_old by (by rewrite length_insert). done.
Qed.

Lemma link_store_length σ l r ln rn :
  length (link_store σ l r ln rn) = S (length σ).
Proof. unfold link_store. rewrite length_app, !length_insert. simpl. lia. Qed.

(** *** What a later step leaves alone *)

Lemma same_but_parent_refl n : same_but_parent n n.
Proof. by repeat split. Qed.

Lemma same_but_parent_trans n1 n2 n3 :
  same_but_parent n1 n2 -> same_but_parent n2 n3 -> same_but_parent n1 n3.
Proof. unfold same_but_parent. intuition congruence. Qed.

Lemma frame_refl T σ : frame T σ σ.
Proof.
  split; [done|]. intros a n Ha. exists n.
  split; [done|]. split; [apply same_but_parent_refl | done].
Qed.

Lemma frame_trans T1 T2 T σ1 σ2 σ3 :
  frame T1 σ1 σ2 -> frame T2 σ2 σ3 ->
  (forall a, a < length σ1 -> a ∈ T1 \/ a ∈ T2 -> a ∈ T) ->
  frame T σ1 σ3.
Proof.
  intros [Hlen1 F1] [Hlen2 F2] HT. split; [lia|].
  intros a n Ha.
  destruct (F1 a n Ha) as (n2 & Ha2 & S12 & K1).
  destruct (F2 a n2 Ha2) as (n3 & Ha3 & S23 & K2).
  exists n3. split; [done|]. split; [by eapply same_but_parent_trans|].
  intros Hout.
  assert (a < length σ1) as Hlt by (by eapply lookup_lt_Some).
  rewrite K2, K1; [done| |]; intros Hin; apply Hout, HT; auto.
Qed.

Lemma frame_link σ l r ln rn :
  σ !! l = Some ln -> σ !! r = Some rn ->
  frame [l; r] σ (link_store σ l r ln rn).
Proof.
  intros Hl Hr. split; [rewrite link_store_length; lia|].
  intros a n Ha. unfold link_store.
  assert (a < length σ) as Hlt by (by eapply lookup_lt_Some).
  rewrite lookup_app_l by (by rewrite !length_insert).
  destruct (decide (a = r)) as [-> | Hr'].
  - rewrite list_lookup_insert_eq by (by rewrite length_insert).
    eexists. split; [done|]. assert (n = rn) as -> by congruence.
    split; [by repeat split|]. intros Hout. exfalso. apply Hout. set_solver.
  - rewrite list_lookup_insert_ne by done.
    destruct (decide (a = l)) as [-> | Hl'].
    + rewrite list_lookup_insert_eq by done.
      eexists. split; [done|]. assert (n = ln) as -> by congruence.
      split; [by repeat split|]. intros Hout. exfalso. apply Hout. set_solver.
    + rewrite list_lookup_insert_ne by done.
      exists n. split; [done|]. split; [apply same_but_parent_refl | done].
Qed.

(** *** One parent and its two children *)

Lemma linked_link σ l r ln rn :
  σ !! l = Some ln -> σ !! r = Some rn ->
  linked (link_store σ l r ln rn) (length σ) l r.
Proof.
  intros Hl Hr.
  assert (l < length σ) as Hll by (by eapply lookup_lt_Some).
  assert (r < length σ) as Hrl by (by eapply lookup_lt_Some).
  exists (parent_of l r ln rn), (set_parent (length σ) ln), (set_parent (length σ) rn).
  unfold link_store. split_and!; try done.
  - rewrite lookup_app_r by (by rewrite !length_insert).
    by rewrite !length_insert, Nat.sub_diag.
  - rewrite lookup_app_l by (by rewrite !length_insert).
    destruct (decide (l = r)) as [-> | Hne].
    + rewrite list_lookup_insert_eq by (by rewrite length_insert). congruence.
    + rewrite list_lookup_insert_ne by done. by rewrite list_lookup_insert_eq.
  - rewrite lookup_app_l by (by rewrite !length_insert).
    by rewrite list_lookup_insert_eq by (by rewrite length_insert).
Qed.

Lemma linked_frame T σ σ' p l r :
  linked σ p l r -> frame T σ σ' -> l ∉ T -> r ∉ T -> linked σ' p l r.
Proof.
  intros (pn & ln & rn & Hp & Hl & Hr & Hlc & Hrc & Hh & Hlp & Hrp) [_ F] Hlo Hro.
  destruct (F p pn Hp) as (pn' & Hp' & (Eh & _ & El & Er) & _).
  destruct (F l ln Hl) as (ln' & Hl' & _ & Kl). rewrite (Kl Hlo) in Hl'.
  destruct (F r rn Hr) as (rn' & Hr' & _ & Kr). rewrite (Kr Hro) in Hr'.
  exists pn', ln, rn. split_and!; try done; congruence.
Qed.

(** *** One level and the level above it *)

Lemma paired_frame T σ σ' lv ps :
  paired σ lv ps -> frame T σ σ' -> (forall a, a ∈ lv -> a ∉ T) -> paired σ' lv ps.
Proof.
  intros HP HF. induction HP as [|l p HL|l r rest p ps HL HP IH]; intros Hout.
  - constructor.
  - constructor. eapply linked_frame; eauto; apply Hout; set_solver.
  - constructor.
    + eapply linked_frame; eauto; apply Hout; set_solver.
    + apply IH. intros a Ha. apply Hout. set_solver.
Qed.

Lemma pairs_ind {A} (P : list A -> Prop) :
  P [] -> (forall x, P [x]) -> (forall x y l, P l -> P (x :: y :: l)) ->
  forall l, P l.
Proof.
  intros P0 P1 P2. fix IH 1.
  intros [|x [|y l]]; [exact P0 | exact (P1 x) | exact (P2 x y l (IH l))].
Qed.

Lemma pair_up_run (lv : list addr) (w : world) :
  NoDup lv ->
  (forall a, a ∈ lv -> a < length (nodes w)) ->
  exists σ',
    pair_up lv w =
      (Return (seq (length (nodes w)) (half_up (length lv))), World σ' (lists w)) /\
    length σ' = length (nodes w) + half_up (length lv) /\
    paired σ' lv (seq (length (nodes w)) (half_up (length lv))) /\
    frame lv (nodes w) σ' /\
    (forall p, length (nodes w) <= p -> p < length σ' ->
       exists pn, σ' !! p = Some pn /\ parent pn = None /\ data_value pn = None).
Proof.
  revert w. induction lv as [|x|l r rest IH] using pairs_ind; intros w ND Hval.
  - exists (nodes w). destruct w as [σ τ]. unfold half_up. simpl.
    split_and!; try done; [constructor | apply frame_refl | intros p ? ?; lia].
  - destruct (lookup_lt_is_Some_2 (nodes w) x) as [xn Hx]; [apply Hval; set_solver|].
    exists (link_store (nodes w) x x xn xn). unfold half_up. simpl.
    rewrite (bind_run _ _ _ _ _ (make_parent_run w x x xn xn Hx Hx)).
    unfold ret. split_and!; try done.
    + rewrite link_store_length. simpl. lia.
    + constructor. by apply linked_link.
    + apply (frame_trans [x; x] [] [x] _ _ _ (frame_link _ _ _ _ _ Hx Hx) (frame_refl _ _)).
      intros a _. rewrite !elem_of_cons, !elem_of_nil. tauto.
    + intros p Hp1 Hp2. rewrite link_store_length in Hp2.
      assert (p = length (nodes w)) as -> by lia.
      destruct (linked_link (nodes w) x x xn xn Hx Hx) as (pn & ? & ? & Hpn & _).
      exists (parent_of x x xn xn). unfold link_store.
      rewrite lookup_app_r by (by rewrite !length_insert).
      by rewrite !length_insert, Nat.sub_diag.
  - apply NoDup_cons in ND as [Hl ND]. apply NoDup_cons in ND as [Hr ND].
    destruct (lookup_lt_is_Some_2 (nodes w) l) as [ln Hln]; [apply Hval; set_solver|].
    destruct (lookup_lt_is_Some_2 (nodes w) r) as [rn Hrn]; [apply Hval; set_solver|].
    set (w1 := World (link_store (nodes w) l r ln rn) (lists w)).
    destruct (IH w1 ND) as (σ' & Erun & Elen & HP & HF & Hnew).
    { intros a Ha. simpl. rewrite link_store_length.
      assert (a < length (nodes w)) by (apply Hval; set_solver). lia. }
    simpl in Erun, Elen, HP, HF, Hnew. rewrite link_store_length in *.
    exists σ'. simpl.
    rewrite (bind_run _ _ _ _ _ (make_parent_run w l r ln rn Hln Hrn)).
    fold w1. rewrite (bind_run _ _ _ _ _ Erun). unfold ret.
    change (half_up (S (S (length rest)))) with (S (half_up (length rest))).
    simpl. split_and!; try done.
    + lia.
    + constructor; [|done].
      eapply linked_frame; [by apply linked_link | exact HF | | done].
      intros Hin. apply Hl. by right.
    + apply (frame_trans [l; r] rest (l :: r :: rest) _ _ _
               (frame_link _ _ _ _ _ Hln Hrn) HF).
      intros a _. rewrite !elem_of_cons, !elem_of_nil. tauto.
    + intros p Hp1 Hp2.
      destruct (decide (p = length (nodes w))) as [-> | Hne].
      * destruct HF as [_ HF].
        destruct (HF (length (nodes w)) (parent_of l r ln rn)) as (pn & Hpn & SB & Keep).
        { unfold link_store. rewrite lookup_app_r by (by rewrite !length_insert).
          by rewrite !length_insert, Nat.sub_diag. }
        exists pn. split; [done|]. rewrite Keep; [done|].
        intros Hin.
        assert (length (nodes w) < length (nodes w)); [|lia].
        apply Hval. by do 2 right.
      * apply Hnew; lia.
Qed.

(** *** The levels from one level up to the root *)

Lemma half_up_bound (n f : nat) : n <= 2 ^ S f -> half_up n <= 2 ^ f.
Proof.
  intros Hn. unfold half_up. rewrite Nat.div2_div.
  rewrite Nat.pow_succ_r' in Hn.
  assert (S n / 2 < S (2 ^ f)); [|lia].
  apply Nat.Div0.div_lt_upper_bound. lia.
Qed.

Lemma build_parents_run (f : nat) :
  forall (lv : list addr) (w : world),
    lv <> [] -> NoDup lv ->
    (forall a, a ∈ lv -> a < length (nodes w)) ->
    length lv <= 2 ^ f ->
    exists root σ' h,
      build_parents (S f) lv w = (Return root, World σ' (lists w)) /\
      tower σ' root lv h /\ h <= f /\
      frame lv (nodes w) σ' /\
      (lv = [root] \/ length (nodes w) <= root).
Proof.
  induction f as [|f IH]; intros lv w Hne ND Hval Hlen.
  - destruct lv as [|x [|y rest]]; [done | | simpl in Hlen; lia].
    destruct (lookup_lt_is_Some_2 (nodes w) x) as [xn Hx]; [apply Hval; by left|].
    exists x, (nodes w), 0. destruct w as [σ τ]. simpl in *.
    split_and!; [done | by econstructor | done | apply frame_refl | by left].
  - destruct lv as [|x [|y rest]]; [done | |].
    + destruct (lookup_lt_is_Some_2 (nodes w) x) as [xn Hx]; [apply Hval; by left|].
      exists x, (nodes w), 0. destruct w as [σ τ]. simpl in *.
      split_and!; [done | by econstructor | lia | apply frame_refl | by left].
    + destruct (pair_up_run (x :: y :: rest) w ND Hval)
        as (σ1 & Erun & Elen & HP & HF & _).
      set (ps := seq (length (nodes w)) (half_up (length (x :: y :: rest)))) in *.
      destruct (IH ps (World σ1 (lists w))) as (root & σ' & h & Brun & HT & Hh & HF' & Hroot).
      { done. }
      { apply NoDup_seq. }
      { intros a Ha. apply elem_of_seq in Ha. simpl. lia. }
      { unfold ps. rewrite length_seq. by apply half_up_bound. }
      simpl in Brun, HF', Hroot.
      assert (length (nodes w) <= root) as Hge.
      { destruct Hroot as [E | ?]; [|lia].
        assert (root ∈ ps) as Hin by (rewrite E; by left).
        apply elem_of_seq in Hin. lia. }
      assert (forall a, a ∈ x :: y :: rest -> a ∉ ps) as Hdisj.
      { intros a Ha Hin. apply Hval in Ha. apply elem_of_seq in Hin. lia. }
      exists root, σ', (S h).
      split_and!.
      * change (build_parents (S (S f)) (x :: y :: rest) w)
          with (bind (pair_up (x :: y :: rest)) (build_parents (S f)) w).
        by rewrite (bind_run _ _ _ _ _ Erun).
      * apply tower_up with ps; [done | | | done].
        -- intros Hin. apply Hval in Hin. lia.
        -- by eapply paired_frame.
      * lia.
      * eapply frame_trans; [exact HF | exact HF' |].
        intros a Ha [Hin | Hin]; [done|]. apply elem_of_seq in Hin. lia.
      * right. done.
Qed.

(** *** Walking up *)

Lemma paired_member σ lv ps a n :
  paired σ lv ps -> NoDup lv -> a ∈ lv -> σ !! a = Some n ->
  exists p pn s sn b,
    p ∈ ps /\ parent n = Some p /\ σ !! p = Some pn /\ σ !! s = Some sn /\
    ((b = Branch.right /\ left_child pn = Some a /\ right_child pn = Some s) \/
     (b = Branch.left /\ left_child pn <> Some a /\ left_child pn = Some s)) /\
    proof_step (hash_value n) (hash_value sn, BranchMarker b) = hash_value pn.
Proof.
  intros HP. induction HP as [|l p HL|l r rest p ps HL HP IH]; intros ND Ha Hn.
  - by apply elem_of_nil in Ha.
  - apply list_elem_of_singleton in Ha as ->.
    destruct HL as (pn & ln & rn & Hp & Hl & Hr & Hlc & Hrc & Hh & Hlp & Hrp).
    assert (ln = n) as -> by congruence. assert (rn = n) as -> by congruence.
    exists p, pn, l, n, Branch.right.
    split_and!; [by left | done | done | done | by left | done].
  - apply NoDup_cons in ND as [Hlr ND]. apply NoDup_cons in ND as [_ ND].
    destruct HL as (pn & ln & rn & Hp & Hl & Hr & Hlc & Hrc & Hh & Hlp & Hrp).
    apply elem_of_cons in Ha as [-> | Ha]; [|apply elem_of_cons in Ha as [-> | Ha]].
    + assert (ln = n) as -> by congruence.
      exists p, pn, r, rn, Branch.right.
      split_and!; [by left | done | done | done | by left | done].
    + assert (rn = n) as -> by congruence.
      exists p, pn, l, ln, Branch.left.
      split_and!; [by left | done | done | done | | done].
      right. split_and!; [done | | done].
      rewrite Hlc. intros [= ->]. apply Hlr. by left.
    + destruct (IH ND Ha Hn) as (p' & pn' & s & sn & b & Hin & Rest).
      exists p', pn', s, sn, b. split; [by right | done].
Qed.

Lemma generate_audit_trail_step (d : nat) (self : MerkleTree) (w : world)
    (a p s t : addr) (n pn sn : Node) (b : Branch.t) (old : list item) :
  root_node self <> a ->
  nodes w !! a = Some n -> parent n = Some p ->
  nodes w !! p = Some pn -> nodes w !! s = Some sn ->
  ((b = Branch.right /\ left_child pn = Some a /\ right_child pn = Some s) \/
   (b = Branch.left /\ left_child pn <> Some a /\ left_child pn = Some s)) ->
  lists w !! t = Some old ->
  generate_audit_trail (S d) self a t w =
    generate_audit_trail d self p t
      (World (nodes w) (<[t := old ++ [(hash_value sn, BranchMarker b)]]> (lists w))).
Proof.
  intros Hroot Ha Hpar Hp Hs Hside Ht. simpl.
  destruct (Nat.eqb_spec (root_node self) a) as [|_]; [done|].
  rewrite (bind_run _ _ _ _ _ (attr_run _ _ _ Ha)).
  rewrite Hpar.
  rewrite (bind_run _ _ _ _ _ (attr_run _ _ _ Hp)).
  destruct Hside as [(-> & Hl & Hr) | (-> & Hnl & Hl)].
  - rewrite bool_decide_eq_true_2 by done. rewrite Hr.
    unfold bind at 1. unfold bind at 1.
    rewrite (attr_run _ _ _ Hs). unfold list_append. by rewrite Ht.
  - rewrite bool_decide_eq_false_2 by done. rewrite Hl.
    unfold bind at 1. unfold bind at 1.
    rewrite (attr_run _ _ _ Hs). unfold list_append. by rewrite Ht.
Qed.

Lemma walk_run σ (self : MerkleTree) root lv h :
  tower σ root lv h ->
  root_node self = root ->
  forall a n, a ∈ lv -> σ !! a = Some n ->
  exists body rn,
    σ !! root_node self = Some rn /\
    length body = h /\
    Forall sibling_step body /\
    fold_left proof_step body (hash_value n) = hash_value rn /\
    forall d τ t old, h < d -> τ !! t = Some old ->
      generate_audit_trail d self a t (World σ τ) =
        (Return t, World σ (<[t := old ++ body ++ [(hash_value rn, NoneMarker)]]> τ)).
Proof.
  induction 1 as [rn Hrn | lv ps h ND Hout HP HT IH]; intros Eroot a n Ha Hn;
    rewrite Eroot.
  - apply list_elem_of_singleton in Ha as ->.
    assert (rn = n) as -> by congruence.
    exists [], n. split_and!; [done | done | constructor | done |].
    intros [|d] τ t old Hd Ht; [lia|]. simpl.
    rewrite Eroot, Nat.eqb_refl.
    rewrite (bind_run _ _ (World σ τ) _ _ (attr_run (World σ τ) _ _ Hn)).
    unfold bind, list_append, ret. simpl. by rewrite Ht.
  - destruct (paired_member σ lv ps a n HP ND Ha Hn)
      as (p & pn & s & sn & b & Hin & Hpar & Hp & Hs & Hside & Hstep).
    destruct (IH Eroot p pn Hin Hp) as (body & rn & Hrn & Hlen & Hall & Hfold & Hrun).
    rewrite Eroot in Hrn.
    exists ((hash_value sn, BranchMarker b) :: body), rn.
    split_and!; [done | simpl; lia | | |].
    + constructor; [by exists b | done].
    + simpl. by rewrite Hstep.
    + intros [|d] τ t old Hd Ht; [lia|].
      assert (root_node self <> a) as Hne by (intros E; apply Hout; congruence).
      rewrite (generate_audit_trail_step d self (World σ τ) a p s t n pn sn b old
                 Hne Hn Hpar Hp Hs Hside Ht).
      simpl.
      assert (t < length τ) as Hlt by (by eapply lookup_lt_Some).
      rewrite (Hrun d _ t (old ++ [(hash_value sn, BranchMarker b)]));
        [| lia | by apply list_lookup_insert_eq].
      rewrite list_insert_insert_eq. by rewrite <- app_assoc.
Qed.

(** *** Leaves, and a query on the tree built over them *)

Lemma build_leaves_run (chunks : list string) :
  forall w,
    build_leaves chunks w =
      (Return (seq (length (nodes w)) (length chunks)),
       World (nodes w ++ map leaf_of chunks) (lists w)).
Proof.
  induction chunks as [|c chunks IH]; intros w; simpl.
  - unfold ret. rewrite app_nil_r. by destruct w.
  - unfold bind at 1. unfold new_Node. unfold bind at 1.
    rewrite IH. unfold ret. simpl.
    rewrite length_app, Nat.add_1_r, <- app_assoc. done.
Qed.

Lemma paired_valid σ lv ps a : paired σ lv ps -> a ∈ lv -> is_Some (σ !! a).
Proof.
  induction 1 as [|l p HL|l r rest p ps HL HP IH]; intros Ha.
  - by apply elem_of_nil in Ha.
  - apply list_elem_of_singleton in Ha as ->.
    destruct HL as (pn & ln & rn & _ & Hl & _). by exists ln.
  - destruct HL as (pn & ln & rn & _ & Hl & Hr & _).
    apply elem_of_cons in Ha as [-> | Ha]; [by exists ln|].
    apply elem_of_cons in Ha as [-> | Ha]; [by exists rn | auto].
Qed.

Lemma tower_valid σ root lv h a : tower σ root lv h -> a ∈ lv -> is_Some (σ !! a).
Proof.
  destruct 1 as [rn Hrn | lv ps h _ _ HP _]; intros Ha.
  - apply list_elem_of_singleton in Ha as ->. by exists rn.
  - by eapply paired_valid.
Qed.

Lemma get_audit_trail_from_run σ (self : MerkleTree) root lv h target :
  tower σ root lv h ->
  root_node self = root ->
  forall rest,
    (forall a, a ∈ rest -> a ∈ lv) ->
    (exists a n, a ∈ rest /\ σ !! a = Some n /\ hash_value n = target) ->
    exists body rn,
      σ !! root = Some rn /\
      length body = h /\
      Forall sibling_step body /\
      fold_left proof_step body target = hash_value rn /\
      forall d τ old, h < d -> τ !! default_trail = Some old ->
        get_audit_trail_from d self rest target (World σ τ) =
          (Return (Some default_trail),
           World σ (<[default_trail := old ++ body ++ [(hash_value rn, NoneMarker)]]> τ)).
Proof.
  intros HT Eroot. induction rest as [|leaf rest IH]; intros Hsub (a & n & Ha & Hn & Hh).
  - by apply elem_of_nil in Ha.
  - destruct (tower_valid σ root lv h leaf HT) as [ln Hln]; [apply Hsub; by left|].
    destruct (String.eqb (hash_value ln) target) eqn:Heq.
    + apply String.eqb_eq in Heq.
      destruct (walk_run σ self root lv h HT Eroot leaf ln)
        as (body & rn & Hrn & Hlen & Hall & Hfold & Hrun); [apply Hsub; by left | done |].
      rewrite Eroot in Hrn. rewrite Heq in Hfold.
      exists body, rn. split_and!; try done.
      intros d τ old Hd Hold. simpl.
      rewrite (bind_run _ _ (World σ τ) _ _ (attr_run (World σ τ) _ _ Hln)).
      rewrite Heq, String.eqb_refl.
      by rewrite (bind_run _ _ _ _ _ (Hrun d τ default_trail old Hd Hold)).
    + assert (a ∈ rest) as Ha'.
      { apply elem_of_cons in Ha as [-> | Ha]; [|done].
        apply String.eqb_neq in Heq. congruence. }
      destruct IH as (body & rn & Hrn & Hlen & Hall & Hfold & Hrun).
      { intros b Hb. apply Hsub. by right. }
      { by exists a, n. }
      exists body, rn. split_and!; try done.
      intros d τ old Hd Hold. simpl.
      rewrite (bind_run _ _ (World σ τ) _ _ (attr_run (World σ τ) _ _ Hln)).
      rewrite Heq. by apply Hrun.
Qed.

Lemma leaves_stored (σ : list Node) (chunks : list string) (i : nat) (c : string) :
  chunks !! i = Some c ->
  (σ ++ map leaf_of chunks) !! (length σ + i) = Some (leaf_of c).
Proof.
  intros Hc. rewrite lookup_app_r by lia.
  replace (length σ + i - length σ) with i by lia.
  change (map leaf_of chunks) with (leaf_of <$> chunks).
  by rewrite list_lookup_fmap, Hc.
Qed.

(** Building a tree and querying it once, from a state in which the
    default trail list holds [old]. *)
Lemma build_and_query (f : nat) (chunks : list string) (c : string)
    (w : world) (old : list item) :
  lists w !! default_trail = Some old ->
  c ∈ chunks ->
  length chunks <= 2 ^ f ->
  exists tree σ' rn body,
    build_tree (S f) chunks w = (Return tree, World σ' (lists w)) /\
    leaves tree = seq (length (nodes w)) (length chunks) /\
    σ' !! root_node tree = Some rn /\
    length body <= f /\
    Forall sibling_step body /\
    fold_left proof_step body (compute_hash c) = hash_value rn /\
    get_audit_trail (S f) tree (compute_hash c) (World σ' (lists w)) =
      (Return (Some default_trail),
       World σ' (<[default_trail := old ++ body ++ [(hash_value rn, NoneMarker)]]>
                   (lists w))).
Proof.
  intros Hold Hc Hlen.
  set (lv := seq (length (nodes w)) (length chunks)).
  set (w0 := World (nodes w ++ map leaf_of chunks) (lists w)).
  destruct (build_parents_run f lv w0) as (root & σ' & h & Brun & HT & Hh & HF & _).
  { destruct chunks; [by apply elem_of_nil in Hc | done]. }
  { apply NoDup_seq. }
  { intros a Ha. apply elem_of_seq in Ha. simpl.
    rewrite length_app, length_map. lia. }
  { unfold lv. by rewrite length_seq. }
  simpl in Brun, HF.
  apply list_elem_of_lookup in Hc as [i Hi].
  pose proof (lookup_lt_Some _ _ _ Hi) as Hilt.
  destruct HF as [_ HF].
  destruct (HF _ _ (leaves_stored (nodes w) chunks i c Hi))
    as (n & Hn & (Ehash & _) & _).
  destruct (get_audit_trail_from_run σ' (mkMerkleTree root lv) root lv h
              (compute_hash c) HT eq_refl lv)
    as (body & rn & Hrn & Hblen & Hall & Hfold & Hrun).
  { done. }
  { exists (length (nodes w) + i), n. split_and!; [|done|done].
    apply elem_of_seq. lia. }
  exists (mkMerkleTree root lv), σ', rn, body.
  split_and!; try done.
  - unfold build_tree.
    rewrite (bind_run _ _ _ _ _ (build_leaves_run chunks w)).
    fold lv w0. by rewrite (bind_run _ _ _ _ _ Brun).
  - lia.
  - unfold get_audit_trail. simpl. apply Hrun; [lia | done].
Qed.

(** *** Strings and the verifier's fold *)

Lemma append_length (s1 s2 : string) :
  String.length (s1 ++ s2) = String.length s1 + String.length s2.
Proof. induction s1 as [|c s1 IH]; simpl; [done | by rewrite IH]. Qed.

Lemma append_cancel_l (s x y : string) : (s ++ x = s ++ y)%string -> x = y.
Proof. induction s as [|c s IH]; simpl; [done|]. intros [= E]. auto. Qed.

Lemma append_cancel_r (s : string) :
  forall x y : string, (x ++ s = y ++ s)%string -> x = y.
Proof.
  induction x as [|a x IH]; intros [|b y] E; simpl in E.
  - done.
  - apply (f_equal String.length) in E. simpl in E.
    rewrite !append_length in E. simpl in E. lia.
  - apply (f_equal String.length) in E. simpl in E.
    rewrite !append_length in E. simpl in E. lia.
  - injection E as -> E. f_equal. by apply IH.
Qed.

Lemma proof_step_inj (it : item) (x y : string) :
  collision_free -> proof_step x it = proof_step y it -> x = y.
Proof.
  intros CF. unfold proof_step, compute_hash.
  destruct (snd it) as [|[|]|v]; intros E; apply CF in E;
    first [by apply append_cancel_l in E | by apply append_cancel_r in E].
Qed.

Lemma fold_proof_step_inj (body : list item) :
  collision_free ->
  forall x y, fold_left proof_step body x = fold_left proof_step body y -> x = y.
Proof.
  intros CF. induction body as [|it body IH]; intros x y E; simpl in E; [done|].
  apply IH in E. by eapply proof_step_inj.
Qed.

Lemma merkle_proof_snoc (root_hash leaf_hash : string) (body : list item) (x : item) :
  merkle_proof root_hash leaf_hash (Some (body ++ [x])) =
    Return (String.eqb (fold_left proof_step body leaf_hash) root_hash).
Proof. unfold merkle_proof. by rewrite removelast_last. Qed.

Lemma paired_lookup σ lv ps :
  paired σ lv ps ->
  forall k p, ps !! k = Some p ->
    exists l r,
      lv !! (2 * k) = Some l /\
      r = default l (lv !! (2 * k + 1)) /\
      linked σ p l r.
Proof.
  induction 1 as [|l p HL|l r rest p ps HL HP IH]; intros k q Hk.
  - done.
  - destruct k as [|k]; [|done]. injection Hk as <-. by exists l, l.
  - destruct k as [|k].
    + injection Hk as <-. by exists l, r.
    + destruct (IH k q Hk) as (l' & r' & Hl' & Hr' & HL').
      exists l', r'. replace (2 * S k) with (S (S (2 * k))) by lia. done.
Qed.

Lemma paired_length σ lv ps : paired σ lv ps -> length ps = half_up (length lv).
Proof.
  induction 1 as [|l p HL|l r rest p ps HL HP IH]; [done | done |].
  simpl. rewrite IH. done.
Qed.


(** ** The properties of the specification *)

(** The round trip of a first query.  From a state in which the default trail list is
    still empty, for every chunk sequence [chunks] and every chunk [c] in
    it, and with room for the recursion ([length chunks <= 2 ^ f] with
    [S f] frames), [build_tree] returns a tree, [get_audit_trail] for
    [compute_hash c] returns a trail, and [merkle_proof] on the root hash
    of the tree, [compute_hash c] and that trail returns [True]. *)
Theorem round_trip (f : nat) (chunks : list string) (c : string) (w : world) :
  lists w !! default_trail = Some [] ->
  c ∈ chunks ->
  length chunks <= 2 ^ f ->
  exists tree w1 w2 rn items,
    build_tree (S f) chunks w = (Return tree, w1) /\
    get_audit_trail (S f) tree (compute_hash c) w1 =
      (Return (Some default_trail), w2) /\
    nodes w2 !! root_node tree = Some rn /\
    lists w2 !! default_trail = Some items /\
    merkle_proof (hash_value rn) (compute_hash c) (Some items) = Return true.
Proof.
  intros Hold Hc Hlen.
  destruct (build_and_query f chunks c w [] Hold Hc Hlen)
    as (tree & σ' & rn & body & Hbuild & _ & Hrn & _ & _ & Hfold & Hquery).
  exists tree, (World σ' (lists w)),
    (World σ' (<[default_trail := body ++ [(hash_value rn, NoneMarker)]]> (lists w))),
    rn, (body ++ [(hash_value rn, NoneMarker)]).
  split_and!; [exact Hbuild | exact Hquery | exact Hrn | |].
  - apply list_lookup_insert_eq. by eapply lookup_lt_Some.
  - rewrite merkle_proof_snoc, Hfold. by rewrite String.eqb_refl.
Qed.

(** Tamper detection on a first query.  With a digest that has no
    collisions and the default trail list still empty, the
    trail derived for [compute_hash c] verifies no other leaf hash:
    [merkle_proof] on the root hash, a hash [h' <> compute_hash c] and
    that trail returns [False]. *)
Theorem tamper_detection (f : nat) (chunks : list string) (c h' : string)
    (w : world) :
  collision_free ->
  lists w !! default_trail = Some [] ->
  c ∈ chunks ->
  length chunks <= 2 ^ f ->
  h' <> compute_hash c ->
  exists tree w1 w2 rn items,
    build_tree (S f) chunks w = (Return tree, w1) /\
    get_audit_trail (S f) tree (compute_hash c) w1 =
      (Return (Some default_trail), w2) /\
    nodes w2 !! root_node tree = Some rn /\
    lists w2 !! default_trail = Some items /\
    merkle_proof (hash_value rn) h' (Some items) = Return false.
Proof.
  intros CF Hold Hc Hlen Hneq.
  destruct (build_and_query f chunks c w [] Hold Hc Hlen)
    as (tree & σ' & rn & body & Hbuild & _ & Hrn & _ & _ & Hfold & Hquery).
  exists tree, (World σ' (lists w)),
    (World σ' (<[default_trail := body ++ [(hash_value rn, NoneMarker)]]> (lists w))),
    rn, (body ++ [(hash_value rn, NoneMarker)]).
  split_and!; [exact Hbuild | exact Hquery | exact Hrn | |].
  - apply list_lookup_insert_eq. by eapply lookup_lt_Some.
  - rewrite merkle_proof_snoc. f_equal.
    apply String.eqb_neq. rewrite <- Hfold. intros E.
    by apply fold_proof_step_inj in E.
Qed.

(** On the empty level the loop appends nothing and the call recurses on
    the empty level again, down to the recursion limit. *)
Lemma build_parents_empty (depth : nat) (w : world) :
  build_parents depth [] w = (Raise RecursionError, w).
Proof.
  induction depth as [|depth IH]; [done|].
  simpl. unfold bind at 1. unfold ret at 1. exact IH.
Qed.

(** C4, as the code has it.  [build_tree] on an empty chunk sequence
    returns no tree, whatever the recursion limit: the call ends in an
    exception, reported to the caller, which is not an [EmptyInputError]
    (the code has no such error), and no node has been created. *)
Theorem build_tree_empty (depth : nat) (w : world) :
  exists e,
    build_tree depth [] w = (Raise e, w) /\
    exn_name e <> "EmptyInputError"%string.
Proof.
  exists RecursionError. split; [|discriminate].
  unfold build_tree. simpl. unfold bind at 1. unfold ret at 1.
  by rewrite (bind_raise _ _ _ _ _ (build_parents_empty depth w)).
Qed.

Lemma proof_step_as_handled (cur : string) (it : item) :
  proof_step cur (as_handled it) = proof_step cur it.
Proof. unfold as_handled, proof_step. by destruct it as [h [|[|]|v]]. Qed.

Lemma fold_as_handled (items : list item) :
  forall cur,
    fold_left proof_step (map as_handled items) cur = fold_left proof_step items cur.
Proof.
  induction items as [|it items IH]; intros cur; simpl; [done|].
  by rewrite proof_step_as_handled, IH.
Qed.

Lemma removelast_map {A B} (g : A -> B) (l : list A) :
  removelast (map g l) = map g (removelast l).
Proof.
  induction l as [|x [|y l] IH]; [done | done |].
  change (g x :: removelast (map g (y :: l)) = g x :: map g (removelast (y :: l))).
  by rewrite IH.
Qed.

(** C5, as the code has it.  [merkle_proof] checks nothing about the
    shape of the trail: on every list it returns a boolean; the last
    element is dropped without being looked at, so any element (or none)
    may stand where the closing element is expected; and every marker
    other than [Branch.left] is handled as [Branch.right]. *)
Theorem merkle_proof_unvalidated (root_hash leaf_hash : string) (items : list item) :
  (exists b, merkle_proof root_hash leaf_hash (Some items) = Return b) /\
  (forall body x y,
     merkle_proof root_hash leaf_hash (Some (body ++ [x])) =
     merkle_proof root_hash leaf_hash (Some (body ++ [y]))) /\
  merkle_proof root_hash leaf_hash (Some (map as_handled items)) =
    merkle_proof root_hash leaf_hash (Some items).
Proof.
  split_and!.
  - by eexists.
  - intros body x y. by rewrite !merkle_proof_snoc.
  - unfold merkle_proof. by rewrite removelast_map, fold_as_handled.
Qed.

Lemma fold_recompute (steps : list (string * Branch.t)) :
  forall cur, fold_left proof_step (map step_item steps) cur = recompute cur steps.
Proof.
  induction steps as [|[sib [|]] steps IH]; intros cur; simpl; [done | |];
    by rewrite <- IH.
Qed.

(** C8.  On a trail made of sibling steps followed by a closing element,
    [merkle_proof] returns a boolean that is [True] exactly when the
    recomputation over the steps, the closing element left out, ends in
    the trusted root hash.  The verifier is a function of its three
    arguments alone: it is not in the monad [M], so it neither reads nor
    changes the store. *)
Theorem merkle_proof_recomputes (root_hash leaf_hash : string)
    (steps : list (string * Branch.t)) (closing : item) :
  exists b,
    merkle_proof root_hash leaf_hash (Some (map step_item steps ++ [closing])) = Return b /\
    (b = true <-> recompute leaf_hash steps = root_hash).
Proof.
  rewrite merkle_proof_snoc, fold_recompute.
  eexists. split; [done|]. apply String.eqb_eq.
Qed.

(** The singleton tree on a first query.  For one chunk the root of the built tree is the
    leaf object itself, carrying [compute_hash c]; with the default trail
    list still empty the audit trail for it is the closing element alone;
    and [merkle_proof] returns [True] on it with no step to fold over. *)
Theorem singleton_tree (f : nat) (c : string) (w : world) :
  lists w !! default_trail = Some [] ->
  let leaf := length (nodes w) in
  let tree := mkMerkleTree leaf [leaf] in
  let trail := [(compute_hash c, NoneMarker)] in
  exists w1 w2,
    build_tree (S f) [c] w = (Return tree, w1) /\
    nodes w1 !! root_node tree = Some (leaf_of c) /\
    get_audit_trail (S f) tree (compute_hash c) w1 = (Return (Some default_trail), w2) /\
    lists w2 !! default_trail = Some trail /\
    removelast trail = [] /\
    merkle_proof (compute_hash c) (compute_hash c) (Some trail) = Return true.
Proof.
  intros Hold leaf tree trail. subst leaf tree trail.
  assert (default_trail < length (lists w)) as Hlt by (by eapply lookup_lt_Some).
  exists (World (nodes w ++ [leaf_of c]) (lists w)),
         (World (nodes w ++ [leaf_of c])
            (<[default_trail := [(compute_hash c, NoneMarker)]]> (lists w))).
  split_and!.
  - done.
  - simpl. apply lookup_snoc_new.
  - unfold get_audit_trail. simpl.
    unfold bind at 1. unfold attr at 1. simpl. rewrite lookup_snoc_new. simpl.
    rewrite String.eqb_refl, Nat.eqb_refl.
    unfold bind, attr, list_append, ret. simpl.
    rewrite lookup_snoc_new. simpl. by rewrite Hold.
  - simpl. by apply list_lookup_insert_eq.
  - done.
  - unfold merkle_proof. simpl. by rewrite String.eqb_refl.
Qed.

(** The pairing loop on its own.  Running the pairing loop over a level
    of distinct nodes whose number is odd and greater than one creates
    [length lv / 2 + 1] parents; the parent at position [k] has
    [lv[2k]] as left child and the digest of the two children's hashes,
    left then right, as hash; for every [k] before the last the right
    child is [lv[2k+1]], a different node, and for the last position, and
    only there, the right child is the left child again. *)
Theorem odd_level_pairing (w : world) (lv : list addr) :
  NoDup lv ->
  (forall a, a ∈ lv -> a < length (nodes w)) ->
  Nat.odd (length lv) = true ->
  1 < length lv ->
  exists ps w',
    pair_up lv w = (Return ps, w') /\
    length ps = length lv / 2 + 1 /\
    forall k p, ps !! k = Some p ->
      exists pn l r ln rn,
        nodes w' !! p = Some pn /\
        nodes w' !! l = Some ln /\ nodes w' !! r = Some rn /\
        lv !! (2 * k) = Some l /\
        left_child pn = Some l /\ right_child pn = Some r /\
        hash_value pn = compute_hash (hash_value ln ++ hash_value rn) /\
        ((k < length lv / 2 /\ lv !! (2 * k + 1) = Some r /\ r <> l) \/
         (k = length lv / 2 /\ r = l)).
Proof.
  intros ND Hval Hodd Hbig.
  destruct (pair_up_run lv w ND Hval) as (σ' & Erun & _ & HP & _ & _).
  set (ps := seq (length (nodes w)) (half_up (length lv))) in *.
  apply Nat.odd_spec in Hodd as [m Hm].
  assert (length ps = length lv / 2 + 1) as Hps.
  { rewrite (paired_length _ _ _ HP). unfold half_up.
    rewrite Nat.div2_div, Hm.
    replace (S (2 * m + 1)) with ((m + 1) * 2) by lia.
    rewrite Nat.div_mul by done.
    replace (2 * m + 1) with (1 + m * 2) by lia.
    rewrite Nat.div_add by done. done. }
  assert (length lv / 2 = m) as Hhalf.
  { rewrite Hm. replace (2 * m + 1) with (1 + m * 2) by lia.
    rewrite Nat.div_add by done. done. }
  exists ps, (World σ' (lists w)). split_and!; [done | done |].
  intros k p Hk. cbn [nodes].
  destruct (paired_lookup _ _ _ HP k p Hk)
    as (l & r & Hl & Hr & pn & ln & rn & Hp & Hln & Hrn & Hlc & Hrc & Hh & _).
  exists pn, l, r, ln, rn. split_and!; try done.
  apply lookup_lt_Some in Hk. rewrite Hps, Hhalf in Hk. rewrite Hhalf.
  destruct (decide (k < m)) as [Hlt | Hge].
  - left. destruct (lookup_lt_is_Some_2 lv (2 * k + 1)) as [r' Hr']; [lia|].
    rewrite Hr' in Hr. simpl in Hr. subst r'.
    split_and!; [done | done |]. intros ->.
    pose proof (NoDup_lookup _ _ _ _ ND Hl Hr'). lia.
  - right. split; [lia|].
    rewrite lookup_ge_None_2 in Hr by lia. done.
Qed.


(** C3, as the code has it.  For the chunks a, b, c, with a digest that
    tells c from a and from b, and from the state the module starts in,
    the audit trail for [compute_hash "c"] has three elements: the hash of
    c itself with [Branch.right] (the lone node is the left child of its
    parent), the hash of the parent of a and b with [Branch.left], and
    the root hash with [None]. *)
Theorem abc_trail (f : nat) :
  compute_hash "c" <> compute_hash "a" ->
  compute_hash "c" <> compute_hash "b" ->
  let p1 := compute_hash (compute_hash "a" ++ compute_hash "b") in
  let p2 := compute_hash (compute_hash "c" ++ compute_hash "c") in
  let root := compute_hash (p1 ++ p2) in
  exists tree w1 w2,
    build_tree (3 + f) ["a"; "b"; "c"]%string init_world = (Return tree, w1) /\
    get_audit_trail (3 + f) tree (compute_hash "c") w1 =
      (Return (Some default_trail), w2) /\
    lists w2 !! default_trail =
      Some [(compute_hash "c", BranchMarker Branch.right);
            (p1, BranchMarker Branch.left);
            (root, NoneMarker)].
Proof.
  intros Hca Hcb p1 p2 root.
  apply not_eq_sym, String.eqb_neq in Hca. apply not_eq_sym, String.eqb_neq in Hcb.
  eexists _, _, _. split_and!.
  - cbv -[compute_hash String.append]. reflexivity.
  - cbv -[compute_hash String.append String.eqb]. rewrite Hca.
    cbv -[compute_hash String.append String.eqb]. rewrite Hcb.
    cbv -[compute_hash String.append String.eqb]. rewrite String.eqb_refl.
    cbv -[compute_hash String.append]. reflexivity.
  - reflexivity.
Qed.

End Proofs.

(** ** The module run with SHA-256 *)

#[local] Existing Instance hashlib_sha256.

(** The model reproduces the root hash the module trusts, and the check of
    the chunk "brown" against it succeeds. *)
Example demo_root_hash :
  exists tree w1 w2 items,
    build_tree recursion_limit demo_chunks init_world = (Return tree, w1) /\
    hash_value <$> nodes w1 !! root_node tree = Some trusted_root_hash /\
    get_audit_trail recursion_limit tree (compute_hash "brown") w1 =
      (Return (Some default_trail), w2) /\
    lists w2 !! default_trail = Some items /\
    merkle_proof trusted_root_hash (compute_hash "brown") (Some items) = Return true /\
    merkle_proof trusted_root_hash (compute_hash "jimp5") (Some items) = Return false.
Proof.
  eexists _, _, _, _. split_and!.
  - vm_compute. reflexivity.
  - vm_compute. reflexivity.
  - vm_compute. reflexivity.
  - vm_compute. reflexivity.
  - vm_compute. reflexivity.
  - vm_compute. reflexivity.
Qed.

Lemma round_trip_witness :
  exists tree w1 w2 rn items,
    build_tree 3 ["a"; "b"; "c"]%string init_world = (Return tree, w1) /\
    get_audit_trail 3 tree (compute_hash "c") w1 = (Return (Some default_trail), w2) /\
    nodes w2 !! root_node tree = Some rn /\
    lists w2 !! default_trail = Some items /\
    merkle_proof (hash_value rn) (compute_hash "c") (Some items) = Return true.
Proof.
  apply (round_trip 2 ["a"; "b"; "c"]%string "c" init_world).
  - reflexivity.
  - repeat constructor.
  - simpl. lia.
Defined.

Lemma tamper_detection_witness :
  exists tree w1 w2 rn items,
    build_tree (sha := verbatim_digest) 3 ["a"; "b"; "c"]%string init_world =
      (Return tree, w1) /\
    get_audit_trail 3 tree "c" w1 =
      (Return (Some default_trail), w2) /\
    nodes w2 !! root_node tree = Some rn /\
    lists w2 !! default_trail = Some items /\
    merkle_proof (sha := verbatim_digest) (hash_value rn) "x" (Some items) = Return false.
Proof.
  apply (tamper_detection (sha := verbatim_digest) 2 ["a"; "b"; "c"]%string "c" "x" init_world).
  - intros x y E. exact E.
  - reflexivity.
  - repeat constructor.
  - simpl. lia.
  - discriminate.
Defined.

(** C2 at a failing input.  On the tree over a, b, the query for a and
    then the query for b: both return the one default list object, and
    after the second it holds the first trail followed by the second, four
    elements with two closing ones, where the query for b on its own
    returns two elements with one closing one. *)
Theorem second_query_accumulates :
  exists tree w1 w2 w3 w3' first fresh,
    build_tree recursion_limit ["a"; "b"]%string init_world = (Return tree, w1) /\
    get_audit_trail recursion_limit tree (compute_hash "a") w1 =
      (Return (Some default_trail), w2) /\
    lists w2 !! default_trail = Some first /\
    get_audit_trail recursion_limit tree (compute_hash "b") w2 =
      (Return (Some default_trail), w3) /\
    get_audit_trail recursion_limit tree (compute_hash "b") w1 =
      (Return (Some default_trail), w3') /\
    lists w3' !! default_trail = Some fresh /\
    lists w3 !! default_trail = Some (first ++ fresh) /\
    first ++ fresh <> fresh /\
    length (List.filter is_closing fresh) = 1 /\
    length (List.filter is_closing (first ++ fresh)) = 2 /\
    (exists rn, nodes w3 !! root_node tree = Some rn /\
       merkle_proof (hash_value rn) (compute_hash "b") (Some fresh) = Return true /\
       merkle_proof (hash_value rn) (compute_hash "b") (Some (first ++ fresh)) = Return false).
Proof.
  eexists _, _, _, _, _, _, _. split_and!.
  - vm_compute. reflexivity.
  - vm_compute. reflexivity.
  - vm_compute. reflexivity.
  - vm_compute. reflexivity.
  - vm_compute. reflexivity.
  - vm_compute. reflexivity.
  - vm_compute. reflexivity.
  - intros E. apply (f_equal length) in E. vm_compute in E. discriminate E.
  - vm_compute. reflexivity.
  - vm_compute. reflexivity.
  - eexists. split_and!; vm_compute; reflexivity.
Qed.

(** C3 fails as stated: the first element of the trail for
    [compute_hash "c"] carries [Branch.right], not [Branch.left]. *)
Lemma abc_trail_first_is_not_left :
  exists tree w1 w2,
    build_tree recursion_limit ["a"; "b"; "c"]%string init_world = (Return tree, w1) /\
    get_audit_trail recursion_limit tree (compute_hash "c") w1 =
      (Return (Some default_trail), w2) /\
    lists w2 !! default_trail <>
      Some [(compute_hash "c", BranchMarker Branch.left);
            (compute_hash (compute_hash "a" ++ compute_hash "b"), BranchMarker Branch.left);
            (compute_hash (compute_hash (compute_hash "a" ++ compute_hash "b")
                           ++ compute_hash (compute_hash "c" ++ compute_hash "c")),
             NoneMarker)].
Proof.
  eexists _, _, _. split_and!.
  - vm_compute. reflexivity.
  - vm_compute. reflexivity.
  - vm_compute. intros E. discriminate E.
Qed.

Lemma abc_trail_witness :
  exists tree w1 w2,
    build_tree 3 ["a"; "b"; "c"]%string init_world = (Return tree, w1) /\
    get_audit_trail 3 tree (compute_hash "c") w1 = (Return (Some default_trail), w2) /\
    lists w2 !! default_trail =
      Some [(compute_hash "c", BranchMarker Branch.right);
            (compute_hash (compute_hash "a" ++ compute_hash "b"), BranchMarker Branch.left);
            (compute_hash (compute_hash (compute_hash "a" ++ compute_hash "b")
                           ++ compute_hash (compute_hash "c" ++ compute_hash "c")),
             NoneMarker)].
Proof.
  apply (abc_trail 0).
  - intros E. vm_compute in E. discriminate E.
  - intros E. vm_compute in E. discriminate E.
Defined.

(** C4 fails as stated: on the empty chunk sequence the call ends in
    [RecursionError], not in an error named [EmptyInputError]. *)
Lemma empty_input_is_recursion_error :
  build_tree recursion_limit [] init_world = (Raise RecursionError, init_world) /\
  exn_name RecursionError <> "EmptyInputError"%string.
Proof. split; [vm_compute; reflexivity | discriminate]. Qed.

(** C5 fails as stated: trails that miss the closing element, or carry an
    unknown marker, are answered with a boolean. *)
Lemma malformed_trail_is_answered :
  trail_shape_ok [] = false /\
  merkle_proof "r" "r" (Some []) = Return true /\
  trail_shape_ok [(compute_hash "b", BranchMarker Branch.right)] = false /\
  merkle_proof (compute_hash "a") (compute_hash "a")
    (Some [(compute_hash "b", BranchMarker Branch.right)]) = Return true /\
  trail_shape_ok
    [(compute_hash "b", OtherMarker "up");
     (compute_hash (compute_hash "a" ++ compute_hash "b"), NoneMarker)] = false /\
  merkle_proof (compute_hash (compute_hash "a" ++ compute_hash "b")) (compute_hash "a")
    (Some [(compute_hash "b", OtherMarker "up");
           (compute_hash (compute_hash "a" ++ compute_hash "b"), NoneMarker)]) = Return true.
Proof. split_and!; vm_compute; reflexivity. Qed.

Lemma singleton_tree_witness :
  exists w1 w2,
    build_tree 1 ["a"]%string init_world = (Return (mkMerkleTree 0 [0]), w1) /\
    nodes w1 !! 0 = Some (leaf_of "a") /\
    get_audit_trail 1 (mkMerkleTree 0 [0]) (compute_hash "a") w1 =
      (Return (Some default_trail), w2) /\
    lists w2 !! default_trail = Some [(compute_hash "a", NoneMarker)] /\
    removelast [(compute_hash "a", NoneMarker)] = [] /\
    merkle_proof (compute_hash "a") (compute_hash "a")
      (Some [(compute_hash "a", NoneMarker)]) = Return true.
Proof. apply (singleton_tree 0 "a" init_world). reflexivity. Defined.

Lemma odd_level_pairing_witness :
  exists ps w',
    pair_up [0; 1; 2] abc_leaves = (Return ps, w') /\
    length ps = length [0; 1; 2] / 2 + 1 /\
    forall k p, ps !! k = Some p ->
      exists pn l r ln rn,
        nodes w' !! p = Some pn /\
        nodes w' !! l = Some ln /\ nodes w' !! r = Some rn /\
        [0; 1; 2] !! (2 * k) = Some l /\
        left_child pn = Some l /\ right_child pn = Some r /\
        hash_value pn = compute_hash (hash_value ln ++ hash_value rn) /\
        ((k < length [0; 1; 2] / 2 /\ [0; 1; 2] !! (2 * k + 1) = Some r /\ r <> l) \/
         (k = length [0; 1; 2] / 2 /\ r = l)).
Proof.
  apply (odd_level_pairing abc_leaves [0; 1; 2]).
  - apply (bool_decide_unpack _). vm_compute. exact I.
  - intros a Ha. simpl.
    repeat (apply elem_of_cons in Ha as [-> | Ha]; [lia|]).
    by apply elem_of_nil in Ha.
  - reflexivity.
  - simpl. lia.
Defined.


(** ** Further properties of the module *)

Section Further.
Context {sha : Sha256}.

(** *** What a query touches *)

Lemma only_appended_refl t w : only_appended t [] w w.
Proof.
  split; [done|]. intros i. case_decide; [|done].
  destruct (lists w !! i); simpl; [by rewrite app_nil_r | done].
Qed.

Lemma only_appended_trans t m1 m2 w1 w2 w3 :
  only_appended t m1 w1 w2 -> only_appended t m2 w2 w3 ->
  only_appended t (m1 ++ m2) w1 w3.
Proof.
  intros [N1 L1] [N2 L2]. split; [congruence|].
  intros i. rewrite L2, L1. case_decide; [|done].
  destruct (lists w1 !! i); simpl; [by rewrite app_assoc | done].
Qed.

Lemma attr_world (r : option addr) (w : world) : snd (attr r w) = w.
Proof. unfold attr. by destruct r as [a|]; [destruct (nodes w !! a)|]. Qed.

Lemma list_append_only_appended t x w :
  exists more, only_appended t more w (snd (list_append t x w)).
Proof.
  unfold list_append. destruct (lists w !! t) as [l|] eqn:E; simpl.
  - exists [x]. split; [done|]. intros i. simpl. case_decide as Hi.
    + subst i. rewrite E. simpl. apply list_lookup_insert_eq. by eapply lookup_lt_Some.
    + by rewrite list_lookup_insert_ne.
  - exists []. apply only_appended_refl.
Qed.

Lemma bind_only_appended {A B} t (m : M A) (k : A -> M B) :
  (forall w, exists more, only_appended t more w (snd (m w))) ->
  (forall a w, exists more, only_appended t more w (snd (k a w))) ->
  forall w, exists more, only_appended t more w (snd (bind m k w)).
Proof.
  intros Hm Hk w. unfold bind. destruct (Hm w) as [m1 H1].
  destruct (m w) as [[a|e] w1]; simpl in *.
  - destruct (Hk a w1) as [m2 H2]. exists (m1 ++ m2). by eapply only_appended_trans.
  - by exists m1.
Qed.

Lemma attr_only_appended t r w : exists more, only_appended t more w (snd (attr r w)).
Proof. rewrite attr_world. exists []. apply only_appended_refl. Qed.

Lemma generate_audit_trail_only_appended (depth : nat) (self : MerkleTree) (t : addr) :
  forall node w,
    exists more, only_appended t more w (snd (generate_audit_trail depth self node t w)).
Proof.
  induction depth as [|depth IH]; intros node w.
  - exists []. apply only_appended_refl.
  - simpl. destruct (root_node self =? node).
    + revert w. apply bind_only_appended; [intros; apply attr_only_appended|].
      intros root. apply bind_only_appended; [intros; apply list_append_only_appended|].
      intros _ w. exists []. apply only_appended_refl.
    + revert w. apply bind_only_appended; [intros; apply attr_only_appended|].
      intros n. apply bind_only_appended; [intros; apply attr_only_appended|].
      intros p. apply bind_only_appended.
      * case_bool_decide; (apply bind_only_appended; [intros; apply attr_only_appended|]);
          intros sib w; apply list_append_only_appended.
      * intros _ w. destruct (parent n) as [up|]; [apply IH|].
        exists []. apply only_appended_refl.
Qed.

(** X2.  Whatever the tree, the target and the state, and whether the call
    returns or raises, [get_audit_trail] changes no [Node] and no list
    object other than the default trail list, and that list keeps the
    elements it had: the call only puts elements behind them. *)
Theorem get_audit_trail_only_appends (depth : nat) (self : MerkleTree)
    (target : string) (w : world) :
  exists more,
    only_appended default_trail more w (snd (get_audit_trail depth self target w)).
Proof.
  unfold get_audit_trail. generalize (leaves self) as rest.
  intros rest. revert w. induction rest as [|leaf rest IH]; intros w.
  - exists []. apply only_appended_refl.
  - simpl. revert w. apply bind_only_appended; [intros; apply attr_only_appended|].
    intros n w. destruct (String.eqb (hash_value n) target); [|apply IH].
    revert w. apply bind_only_appended; [apply generate_audit_trail_only_appended|].
    intros a w. exists []. apply only_appended_refl.
Qed.

(** *** The scan for the target hash *)

Lemma get_audit_trail_from_none (depth : nat) (self : MerkleTree)
    (target : string) (w : world) :
  forall rest,
    (forall a, a ∈ rest -> exists n, nodes w !! a = Some n /\ hash_value n <> target) ->
    get_audit_trail_from depth self rest target w = (Return None, w).
Proof.
  induction rest as [|leaf rest IH]; intros Hall; [done|].
  destruct (Hall leaf) as (n & Hn & Hne); [by left|].
  simpl. rewrite (bind_run _ _ _ _ _ (attr_run _ _ _ Hn)).
  apply String.eqb_neq in Hne. rewrite Hne.
  apply IH. intros a Ha. apply Hall. by right.
Qed.

(** X9.  The scan stops at the first leaf carrying the target hash: when
    no leaf before [leaf] in [self.leaves] has that hash and [leaf] has
    it, [get_audit_trail] is the walk up from [leaf] on the default list,
    whatever leaves follow, also leaves with the same hash. *)
Theorem get_audit_trail_first_match (depth : nat) (self : MerkleTree)
    (target : string) (w : world) (before after : list addr) (leaf : addr) (n : Node) :
  leaves self = before ++ leaf :: after ->
  (forall a, a ∈ before -> exists m, nodes w !! a = Some m /\ hash_value m <> target) ->
  nodes w !! leaf = Some n ->
  hash_value n = target ->
  get_audit_trail depth self target w =
    bind (generate_audit_trail depth self leaf default_trail)
         (fun trail => ret (Some trail)) w.
Proof.
  intros Hsplit Hbefore Hn Hh. unfold get_audit_trail. rewrite Hsplit. clear Hsplit.
  induction before as [|b before IH]; simpl.
  - rewrite (bind_run _ _ _ _ _ (attr_run _ _ _ Hn)).
    by rewrite Hh, String.eqb_refl.
  - destruct (Hbefore b) as (m & Hm & Hne); [by left|].
    rewrite (bind_run _ _ _ _ _ (attr_run _ _ _ Hm)).
    apply String.eqb_neq in Hne. rewrite Hne.
    apply IH. intros a Ha. apply Hbefore. by right.
Qed.

(** *** The tree that [build_tree] leaves in the store *)

Lemma hash_is_frame T σ σ' a h : frame T σ σ' -> hash_is σ a h -> hash_is σ' a h.
Proof.
  intros [_ F]. unfold hash_is. destruct (σ !! a) as [n|] eqn:E; [|done].
  intros [= <-]. destruct (F a n E) as (n' & -> & (Eh & _) & _). simpl. by rewrite Eh.
Qed.

Lemma paired_hashes σ lv ps :
  paired σ lv ps ->
  forall hs, Forall2 (hash_is σ) lv hs -> Forall2 (hash_is σ) ps (pair_hashes hs).
Proof.
  induction 1 as [|l p HL|l r rest p ps HL HP IH]; intros hs Hhs.
  - apply Forall2_nil_inv_l in Hhs as ->. constructor.
  - apply Forall2_cons_inv_l in Hhs as (h & hs' & Hh & Hnil & ->).
    apply Forall2_nil_inv_l in Hnil as ->. simpl.
    constructor; [|constructor].
    destruct HL as (pn & ln & rn & Hp & Hl & Hr & _ & _ & Hhash & _).
    unfold hash_is in *. rewrite Hl in Hh. injection Hh as <-.
    rewrite Hp. simpl. rewrite Hhash. congruence.
  - apply Forall2_cons_inv_l in Hhs as (h1 & hs1 & Hh1 & Hhs & ->).
    apply Forall2_cons_inv_l in Hhs as (h2 & hs2 & Hh2 & Hhs & ->).
    simpl. constructor; [|by apply IH].
    destruct HL as (pn & ln & rn & Hp & Hl & Hr & _ & _ & Hhash & _).
    unfold hash_is in *. rewrite Hl in Hh1. rewrite Hr in Hh2.
    injection Hh1 as <-. injection Hh2 as <-.
    rewrite Hp. simpl. by rewrite Hhash.
Qed.

Lemma half_up_le (n : nat) : half_up n <= n.
Proof.
  unfold half_up. rewrite Nat.div2_div.
  destruct n as [|n]; [done|].
  apply Nat.Div0.div_le_upper_bound. lia.
Qed.

Lemma half_up_double (n : nat) : 2 * half_up n <= n + 1.
Proof.
  unfold half_up. rewrite Nat.div2_div.
  pose proof (Nat.Div0.mul_div_le (S n) 2). lia.
Qed.

(** What [build_parents] returns and leaves behind, read off one level at
    a time. *)
Lemma build_parents_root (f : nat) :
  forall (lv : list addr) (w : world) (hs : list string),
    lv <> [] -> NoDup lv ->
    (forall a, a ∈ lv -> a < length (nodes w)) ->
    length lv <= 2 ^ f ->
    Forall2 (hash_is (nodes w)) lv hs ->
    exists root σ' rn,
      build_parents (S f) lv w = (Return root, World σ' (lists w)) /\
      σ' !! root = Some rn /\
      merkle_root (S f) hs = Some (hash_value rn) /\
      length σ' + 1 <= length (nodes w) + length lv + f /\
      frame lv (nodes w) σ' /\
      ((lv = [root] /\ σ' = nodes w) \/
       (2 <= length lv /\ length (nodes w) <= root /\ top_parent σ' rn)).
Proof.
  induction f as [|f IH]; intros lv w hs Hne ND Hval Hlen Hhs.
  - destruct lv as [|x [|y rest]]; [done | | simpl in Hlen; lia].
    destruct (lookup_lt_is_Some_2 (nodes w) x) as [xn Hx]; [apply Hval; by left|].
    apply Forall2_cons_inv_l in Hhs as (h & hs' & Hh & Hnil & ->).
    apply Forall2_nil_inv_l in Hnil as ->.
    unfold hash_is in Hh. rewrite Hx in Hh. injection Hh as <-.
    exists x, (nodes w), xn. destruct w as [σ τ]. simpl in *.
    split_and!; [done | done | done | lia | apply frame_refl | by left].
  - destruct lv as [|x [|y rest]]; [done | |].
    + destruct (lookup_lt_is_Some_2 (nodes w) x) as [xn Hx]; [apply Hval; by left|].
      apply Forall2_cons_inv_l in Hhs as (h & hs' & Hh & Hnil & ->).
      apply Forall2_nil_inv_l in Hnil as ->.
      unfold hash_is in Hh. rewrite Hx in Hh. injection Hh as <-.
      exists x, (nodes w), xn. destruct w as [σ τ]. simpl in *.
      split_and!; [done | done | done | lia | apply frame_refl | by left].
    + destruct (pair_up_run (x :: y :: rest) w ND Hval)
        as (σ1 & Erun & Elen & HP & HF & Hnew).
      set (lv := x :: y :: rest) in *.
      set (ps := seq (length (nodes w)) (half_up (length lv))) in *.
      assert (Forall2 (hash_is σ1) ps (pair_hashes hs)) as Hhs1.
      { apply (paired_hashes _ _ _ HP).
        eapply Forall2_impl; [exact Hhs|]. intros a h. by apply (hash_is_frame lv). }
      destruct (IH ps (World σ1 (lists w)) (pair_hashes hs))
        as (root & σ' & rn & Brun & Hrn & Hroot & Hcount & HF' & Hshape).
      { done. }
      { apply NoDup_seq. }
      { intros a Ha. apply elem_of_seq in Ha. simpl. lia. }
      { unfold ps. rewrite length_seq. by apply half_up_bound. }
      { done. }
      cbn [nodes lists] in Brun, Hcount, HF', Hshape.
      assert (length ps = half_up (length lv)) as Hps by (unfold ps; by rewrite length_seq).
      assert (length (nodes w) <= root) as Hge.
      { destruct Hshape as [[E _] | (_ & ? & _)]; [|lia].
        assert (root ∈ ps) as Hin by (rewrite E; by left).
        apply elem_of_seq in Hin. lia. }
      exists root, σ', rn. split_and!.
      * change (build_parents (S (S f)) lv w)
          with (bind (pair_up lv) (build_parents (S f)) w).
        by rewrite (bind_run _ _ _ _ _ Erun).
      * done.
      * assert (exists h1 h2 hs', hs = h1 :: h2 :: hs') as (h1 & h2 & hs' & ->).
        { apply Forall2_cons_inv_l in Hhs as (h1 & hs1 & _ & Hhs & ->).
          apply Forall2_cons_inv_l in Hhs as (h2 & hs2 & _ & _ & ->). by eexists _, _, _. }
        exact Hroot.
      * pose proof (half_up_double (length lv)). lia.
      * eapply frame_trans; [exact HF | exact HF' |].
        intros a Ha [Hin | Hin]; [done|]. apply elem_of_seq in Hin. lia.
      * right. split_and!; [simpl; lia | done |].
        destruct Hshape as [[E ->] | (_ & _ & Htop)]; [|done].
        assert (ps !! 0 = Some root) as H0 by (by rewrite E).
        destruct (paired_lookup _ _ _ HP 0 root H0)
          as (l & r & _ & _ & pn & ln & rn' & Hp & Hl & Hr & Hlc & Hrc & Hh & _).
        assert (pn = rn) as -> by congruence.
        destruct (Hnew root) as (pn & Hpn & Hpar & Hdata).
        { done. }
        { by eapply lookup_lt_Some. }
        assert (pn = rn) as -> by congruence.
        split_and!; [done | done | unfold is_leaf; by rewrite Hlc |].
        by exists l, r, ln, rn'.
Qed.

Lemma leaves_hashes (σ : list Node) (chunks : list string) :
  Forall2 (hash_is (σ ++ map leaf_of chunks))
          (seq (length σ) (length chunks)) (map compute_hash chunks).
Proof.
  apply Forall2_same_length_lookup_2.
  - by rewrite length_seq, length_map.
  - intros i a h Ha Hh. apply lookup_seq in Ha as [-> Hi].
    change (map compute_hash chunks) with (compute_hash <$> chunks) in Hh.
    rewrite list_lookup_fmap in Hh.
    destruct (chunks !! i) as [c|] eqn:Hc; [|done]. injection Hh as <-.
    unfold hash_is. by rewrite (leaves_stored σ chunks i c Hc).
Qed.

(** The outcome of [build_tree] in one place. *)
Lemma build_tree_run (f : nat) (chunks : list string) (w : world) :
  chunks <> [] ->
  length chunks <= 2 ^ f ->
  let lv := seq (length (nodes w)) (length chunks) in
  let σ0 := nodes w ++ map leaf_of chunks in
  exists root σ' rn h,
    build_tree (S f) chunks w = (Return (mkMerkleTree root lv), World σ' (lists w)) /\
    σ' !! root = Some rn /\
    merkle_root (S f) (map compute_hash chunks) = Some (hash_value rn) /\
    length σ' + 1 <= length (nodes w) + 2 * length chunks + f /\
    frame lv σ0 σ' /\
    tower σ' root lv h /\ h <= f /\
    ((lv = [root] /\ σ' = σ0) \/
     (2 <= length chunks /\ length σ0 <= root /\ top_parent σ' rn)).
Proof.
  intros Hne Hlen lv σ0.
  assert (lv <> []) as Hlv.
  { unfold lv. destruct chunks; [done|]. simpl. done. }
  assert (NoDup lv) as ND by apply NoDup_seq.
  assert (forall a, a ∈ lv -> a < length (nodes (World σ0 (lists w)))) as Hval.
  { intros a Ha. apply elem_of_seq in Ha. simpl. unfold σ0.
    rewrite length_app, length_map. lia. }
  assert (length lv <= 2 ^ f) as Hlen' by (unfold lv; by rewrite length_seq).
  destruct (build_parents_root f lv (World σ0 (lists w)) (map compute_hash chunks)
              Hlv ND Hval Hlen' (leaves_hashes (nodes w) chunks))
    as (root & σ' & rn & Brun & Hrn & Hroot & Hcount & HF & Hshape).
  destruct (build_parents_run f lv (World σ0 (lists w)) Hlv ND Hval Hlen')
    as (root' & σ'' & h & Brun' & HT & Hh & _ & _).
  rewrite Brun in Brun'. injection Brun' as <- <-.
  cbn [nodes lists] in Brun, Hcount, HF, Hshape.
  exists root, σ', rn, h. split_and!; try done.
  - unfold build_tree.
    rewrite (bind_run _ _ _ _ _ (build_leaves_run chunks w)).
    fold lv σ0. by rewrite (bind_run _ _ _ _ _ Brun).
  - unfold σ0, lv in Hcount. rewrite length_app, length_map, length_seq in Hcount. lia.
  - destruct Hshape as [? | (Hl & ? & ?)]; [by left | right].
    unfold lv in Hl. rewrite length_seq in Hl. done.
Qed.

(** X4.  The root hash of the tree [build_tree] returns is a function of
    the chunk sequence alone: it is [merkle_root] of the chunks' hashes,
    whatever objects the store held before, so trees built over the same
    chunks in different states carry the same root hash. *)
Theorem build_tree_root_hash (f : nat) (chunks : list string) (w : world) :
  chunks <> [] ->
  length chunks <= 2 ^ f ->
  exists tree w1 rn,
    build_tree (S f) chunks w = (Return tree, w1) /\
    nodes w1 !! root_node tree = Some rn /\
    merkle_root (S f) (map compute_hash chunks) = Some (hash_value rn).
Proof.
  intros Hne Hlen.
  destruct (build_tree_run f chunks w Hne Hlen)
    as (root & σ' & rn & h & Hbuild & Hrn & Hroot & _).
  by eexists _, _, rn.
Qed.

(** X5.  [build_tree] leaves what was there alone: every list object and
    every [Node] of the store it starts from is unchanged afterwards, so a
    tree built earlier is not affected by building another. *)
Theorem build_tree_preserves (f : nat) (chunks : list string) (w : world) :
  chunks <> [] ->
  length chunks <= 2 ^ f ->
  exists tree w1,
    build_tree (S f) chunks w = (Return tree, w1) /\
    lists w1 = lists w /\
    forall a n, nodes w !! a = Some n -> nodes w1 !! a = Some n.
Proof.
  intros Hne Hlen.
  destruct (build_tree_run f chunks w Hne Hlen)
    as (root & σ' & rn & h & Hbuild & _ & _ & _ & [_ HF] & _).
  eexists _, _. split_and!; [exact Hbuild | done |].
  intros a n Ha. simpl.
  destruct (HF a n) as (n' & Hn' & _ & Keep).
  { by apply lookup_app_l_Some. }
  rewrite Keep in Hn'; [done|].
  intros Hin. apply elem_of_seq in Hin. apply lookup_lt_Some in Ha. lia.
Qed.

(** X6.  [build_tree] over [n] chunks, with [n <= 2 ^ f], creates at least
    [n] and fewer than [2 * n + f] objects: the leaves, and on every level
    above them half as many parents, rounded up. *)
Theorem build_tree_node_count (f : nat) (chunks : list string) (w : world) :
  chunks <> [] ->
  length chunks <= 2 ^ f ->
  exists tree w1,
    build_tree (S f) chunks w = (Return tree, w1) /\
    length (nodes w) + length chunks <= length (nodes w1) /\
    length (nodes w1) < length (nodes w) + 2 * length chunks + f.
Proof.
  intros Hne Hlen.
  destruct (build_tree_run f chunks w Hne Hlen)
    as (root & σ' & rn & h & Hbuild & _ & _ & Hcount & [Hgrow _] & _).
  eexists _, _. split_and!; [exact Hbuild | |].
  - simpl. rewrite length_app, length_map in Hgrow. done.
  - simpl. lia.
Qed.

(** X7.  The root of a tree over two or more chunks is an object created
    by the build, after all the leaves: it has no parent and no payload,
    it is not a leaf, and its hash is the digest of its left child's hash
    followed by its right child's. *)
Theorem build_tree_root_is_parent (f : nat) (chunks : list string) (w : world) :
  2 <= length chunks ->
  length chunks <= 2 ^ f ->
  exists tree w1 rn,
    build_tree (S f) chunks w = (Return tree, w1) /\
    nodes w1 !! root_node tree = Some rn /\
    length (nodes w) + length chunks <= root_node tree /\
    (root_node tree ∉ leaves tree) /\
    top_parent (nodes w1) rn.
Proof.
  intros Htwo Hlen.
  destruct (build_tree_run f chunks w) as
    (root & σ' & rn & h & Hbuild & Hrn & _ & _ & _ & _ & _ & Hshape);
    [intros ->; simpl in Htwo; lia | done |].
  destruct Hshape as [[E _] | (_ & Hroot & Htop)].
  { apply (f_equal length) in E. rewrite length_seq in E. simpl in E. lia. }
  rewrite length_app, length_map in Hroot.
  eexists _, _, rn. split_and!; [exact Hbuild | done | done | | done].
  simpl. intros Hin. apply elem_of_seq in Hin. lia.
Qed.

(** X8.  After [build_tree] the leaves are as [build_leaves] made them,
    one per chunk in the order of the chunks: the leaf at position [i]
    carries the hash and the payload of chunk [i] and has no children;
    with two or more chunks it has got a parent, which is not a leaf, and
    with one chunk it has none. *)
Theorem build_tree_leaves (f : nat) (chunks : list string) (w : world) :
  chunks <> [] ->
  length chunks <= 2 ^ f ->
  exists tree w1,
    build_tree (S f) chunks w = (Return tree, w1) /\
    length (leaves tree) = length chunks /\
    forall i c, chunks !! i = Some c ->
      exists a n,
        leaves tree !! i = Some a /\ nodes w1 !! a = Some n /\
        hash_value n = compute_hash c /\ data_value n = Some c /\
        is_leaf n = true /\
        (length chunks = 1 -> parent n = None) /\
        (2 <= length chunks ->
           exists p pn, parent n = Some p /\ nodes w1 !! p = Some pn /\
                        is_leaf pn = false).
Proof.
  intros Hne Hlen.
  destruct (build_tree_run f chunks w Hne Hlen)
    as (root & σ' & rn & h & Hbuild & Hrn & _ & _ & [_ HF] & HT & _ & Hshape).
  eexists _, _. split_and!; [exact Hbuild | simpl; by rewrite length_seq |].
  intros i c Hc. cbn [leaves nodes].
  pose proof (lookup_lt_Some _ _ _ Hc) as Hi.
  destruct (HF _ _ (leaves_stored (nodes w) chunks i c Hc))
    as (n & Hn & (Eh & Ed & El & Er) & _).
  exists (length (nodes w) + i), n.
  split_and!; [by apply lookup_seq | done | done | done | | |].
  - unfold is_leaf. by rewrite El, Er.
  - intros Hone. destruct Hshape as [[_ ->] | (? & _)]; [|lia].
    rewrite (leaves_stored (nodes w) chunks i c Hc) in Hn. by injection Hn as <-.
  - intros Htwo.
    inversion HT as [rn' Hrn' E | lv' ps h' ND Hout HP HT' E1 E2].
    { apply (f_equal length) in E. rewrite length_seq in E. simpl in E. lia. }
    destruct (paired_member σ' _ ps (length (nodes w) + i) n HP ND)
      as (p & pn & s & sn & b & _ & Hpar & Hp & _ & Hside & _); [|done|].
    { apply elem_of_seq. lia. }
    exists p, pn. split_and!; [done | done |].
    unfold is_leaf.
    destruct Hside as [(_ & -> & _) | (_ & _ & ->)]; done.
Qed.

(** X3.  [build_leaves] never fails, also on no chunks: it creates one
    object per chunk, at distinct new addresses listed in the order of the
    chunks, each with the chunk's hash and the chunk as payload and with
    neither parent nor children, and it changes no object and no list that
    was there. *)
Theorem build_leaves_spec (chunks : list string) (w : world) :
  exists lvs w1,
    build_leaves chunks w = (Return lvs, w1) /\
    lists w1 = lists w /\
    length lvs = length chunks /\
    NoDup lvs /\
    (forall a n, nodes w !! a = Some n -> nodes w1 !! a = Some n /\ a ∉ lvs) /\
    (forall i c, chunks !! i = Some c ->
       exists a, lvs !! i = Some a /\
                 nodes w1 !! a = Some (mkNode (compute_hash c) (Some c) None None None)).
Proof.
  eexists _, _. split_and!; [apply build_leaves_run | done | by rewrite length_seq
                            | apply NoDup_seq | |].
  - intros a n Ha. simpl. split; [by apply lookup_app_l_Some|].
    intros Hin. apply elem_of_seq in Hin. apply lookup_lt_Some in Ha. lia.
  - intros i c Hc. exists (length (nodes w) + i). simpl. split.
    + apply lookup_seq. split; [done|]. by eapply lookup_lt_Some.
    + by apply leaves_stored.
Qed.

Lemma built_leaves_hashes (f : nat) (chunks : list string) (w : world) σ' :
  frame (seq (length (nodes w)) (length chunks)) (nodes w ++ map leaf_of chunks) σ' ->
  forall a, a ∈ seq (length (nodes w)) (length chunks) ->
    exists c n, c ∈ chunks /\ σ' !! a = Some n /\ hash_value n = compute_hash c.
Proof.
  intros [_ HF] a Ha. apply elem_of_seq in Ha.
  destruct (lookup_lt_is_Some_2 chunks (a - length (nodes w))) as [c Hc]; [lia|].
  destruct (HF _ _ (leaves_stored (nodes w) chunks _ c Hc)) as (n & Hn & (Eh & _) & _).
  replace (length (nodes w) + (a - length (nodes w))) with a in Hn by lia.
  exists c, n. split_and!; [|done|done]. apply list_elem_of_lookup. eauto.
Qed.

(** X1.  On a tree built over chunks none of which hashes to [target],
    [get_audit_trail] returns [None] for [target], at any recursion depth,
    and leaves the state as it was (nothing is appended to the default
    list); handing that [None] to [merkle_proof] raises [TypeError]. *)
Theorem unknown_hash_is_none (f : nat) (chunks : list string) (target : string)
    (w : world) :
  chunks <> [] ->
  length chunks <= 2 ^ f ->
  (forall c, c ∈ chunks -> compute_hash c <> target) ->
  exists tree w1,
    build_tree (S f) chunks w = (Return tree, w1) /\
    (forall depth, get_audit_trail depth tree target w1 = (Return None, w1)) /\
    (forall root_hash, merkle_proof root_hash target None = Raise TypeError).
Proof.
  intros Hne Hlen Hnone.
  destruct (build_tree_run f chunks w Hne Hlen)
    as (root & σ' & rn & h & Hbuild & _ & _ & _ & HF & _).
  eexists _, _. split_and!; [exact Hbuild | | done].
  intros depth. unfold get_audit_trail. cbn [leaves].
  apply get_audit_trail_from_none. intros a Ha.
  destruct (built_leaves_hashes f chunks w σ' HF a Ha) as (c & n & Hc & Hn & Hh).
  exists n. split; [done|]. rewrite Hh. by apply Hnone.
Qed.

Lemma half_up_ge (n : nat) : n <= 2 * half_up n.
Proof.
  unfold half_up. rewrite Nat.div2_div.
  pose proof (Nat.div_mod_eq (S n) 2).
  pose proof (Nat.mod_upper_bound (S n) 2). lia.
Qed.

Lemma tower_width σ root lv h : tower σ root lv h -> length lv <= 2 ^ h.
Proof.
  induction 1 as [rn Hrn | lv ps h ND Hout HP HT IH]; [done|].
  rewrite (paired_length _ _ _ HP) in IH.
  pose proof (half_up_ge (length lv)). rewrite Nat.pow_succ_r'. lia.
Qed.

Lemma closed_trail_shape_ok (body : list item) (r : string) :
  Forall sibling_step body -> trail_shape_ok (body ++ [(r, NoneMarker)]) = true.
Proof.
  intros Hall. unfold trail_shape_ok. rewrite last_snoc. simpl.
  rewrite forallb_app. simpl. rewrite andb_true_r.
  apply forallb_forall. intros it Hin.
  apply list_elem_of_In in Hin.
  rewrite Forall_forall in Hall. destruct (Hall it Hin) as [b Hb].
  unfold recognized. by rewrite Hb.
Qed.

(** X10.  The trails of one tree all have the same length.  From a state
    with the default list empty, the trail for any chunk of the tree is
    [h] sibling steps, each marked with a [Branch], followed by the root
    hash marked [None], where [h] is the same for every chunk, is below
    the recursion depth and satisfies [length chunks <= 2 ^ h]. *)
Theorem audit_trail_shape (f : nat) (chunks : list string) (w : world) :
  lists w !! default_trail = Some [] ->
  chunks <> [] ->
  length chunks <= 2 ^ f ->
  exists tree w1 rn h,
    build_tree (S f) chunks w = (Return tree, w1) /\
    nodes w1 !! root_node tree = Some rn /\
    h <= f /\ length chunks <= 2 ^ h /\
    forall c, c ∈ chunks ->
      exists w2 body,
        get_audit_trail (S f) tree (compute_hash c) w1 =
          (Return (Some default_trail), w2) /\
        lists w2 !! default_trail = Some (body ++ [(hash_value rn, NoneMarker)]) /\
        length body = h /\
        Forall sibling_step body /\
        trail_shape_ok (body ++ [(hash_value rn, NoneMarker)]) = true.
Proof.
  intros Hold Hne Hlen.
  destruct (build_tree_run f chunks w Hne Hlen)
    as (root & σ' & rn & h & Hbuild & Hrn & _ & _ & HF & HT & Hh & _).
  eexists _, _, rn, h. split_and!; [exact Hbuild | done | done | |].
  { apply tower_width in HT. by rewrite length_seq in HT. }
  intros c Hc.
  set (lv := seq (length (nodes w)) (length chunks)) in *.
  destruct (get_audit_trail_from_run σ' (mkMerkleTree root lv) root lv h
              (compute_hash c) HT eq_refl lv)
    as (body & rn' & Hrn' & Hblen & Hall & _ & Hrun).
  { done. }
  { apply list_elem_of_lookup in Hc as [i Hi].
    pose proof (lookup_lt_Some _ _ _ Hi).
    destruct HF as [_ HF].
    destruct (HF _ _ (leaves_stored (nodes w) chunks i c Hi)) as (n & Hn & (Eh & _) & _).
    exists (length (nodes w) + i), n. split_and!; [|done|done].
    apply elem_of_seq. lia. }
  assert (rn' = rn) as -> by (cbn [nodes] in Hrn; congruence).
  eexists _, body. split_and!.
  - unfold get_audit_trail. cbn [leaves]. apply Hrun; [lia | done].
  - simpl. apply list_lookup_insert_eq. by eapply lookup_lt_Some.
  - done.
  - done.
  - by apply closed_trail_shape_ok.
Qed.

(** X11.  A query on a built tree puts the trail of the leaf behind
    whatever the default list holds, and returns that list: there is one
    trail [fresh], accepted by [merkle_proof] against the root hash, such
    that from any contents [old] the list holds [old ++ fresh] after the
    query.  (No state of the default list is assumed for the build.) *)
Theorem query_appends_valid_trail (f : nat) (chunks : list string) (c : string)
    (w : world) :
  c ∈ chunks ->
  length chunks <= 2 ^ f ->
  exists tree w1 rn fresh,
    build_tree (S f) chunks w = (Return tree, w1) /\
    nodes w1 !! root_node tree = Some rn /\
    merkle_proof (hash_value rn) (compute_hash c) (Some fresh) = Return true /\
    forall τ old, τ !! default_trail = Some old ->
      get_audit_trail (S f) tree (compute_hash c) (World (nodes w1) τ) =
        (Return (Some default_trail),
         World (nodes w1) (<[default_trail := old ++ fresh]> τ)).
Proof.
  intros Hc Hlen.
  assert (chunks <> []) as Hne by (intros ->; by apply elem_of_nil in Hc).
  destruct (build_tree_run f chunks w Hne Hlen)
    as (root & σ' & rn & h & Hbuild & Hrn & _ & _ & HF & HT & Hh & _).
  set (lv := seq (length (nodes w)) (length chunks)) in *.
  destruct (get_audit_trail_from_run σ' (mkMerkleTree root lv) root lv h
              (compute_hash c) HT eq_refl lv)
    as (body & rn' & Hrn' & Hblen & Hall & Hfold & Hrun).
  { done. }
  { apply list_elem_of_lookup in Hc as [i Hi].
    pose proof (lookup_lt_Some _ _ _ Hi).
    destruct HF as [_ HF].
    destruct (HF _ _ (leaves_stored (nodes w) chunks i c Hi)) as (n & Hn & (Eh & _) & _).
    exists (length (nodes w) + i), n. split_and!; [|done|done].
    apply elem_of_seq. lia. }
  assert (rn' = rn) as -> by congruence.
  eexists _, _, rn, (body ++ [(hash_value rn, NoneMarker)]).
  split_and!; [exact Hbuild | done | |].
  - rewrite merkle_proof_snoc, Hfold. by rewrite String.eqb_refl.
  - intros τ old Hold. unfold get_audit_trail. cbn [leaves nodes].
    apply Hrun; [lia | done].
Qed.

Lemma proof_step_sibling_inj (cur : string) (it it' : item) :
  collision_free -> snd it' = snd it ->
  proof_step cur it' = proof_step cur it -> fst it' = fst it.
Proof.
  intros CF Hm. unfold proof_step, compute_hash. rewrite Hm.
  destruct (snd it) as [|[|]|v]; intros E; apply CF in E;
    first [by apply append_cancel_r in E | by apply append_cancel_l in E].
Qed.

(** X12.  With a digest that has no collisions, a trail that
    [merkle_proof] accepts is rejected once the hash of one of its sibling
    steps is replaced by another hash, the marker kept. *)
Theorem altered_sibling_rejected (root_hash leaf_hash : string)
    (before after : list item) (it it' closing : item) :
  collision_free ->
  snd it' = snd it ->
  fst it' <> fst it ->
  merkle_proof root_hash leaf_hash (Some (before ++ it :: after ++ [closing])) = Return true ->
  merkle_proof root_hash leaf_hash (Some (before ++ it' :: after ++ [closing])) = Return false.
Proof.
  intros CF Hm Hne.
  replace (before ++ it :: after ++ [closing])
    with ((before ++ it :: after) ++ [closing]) by (by rewrite <- app_assoc).
  replace (before ++ it' :: after ++ [closing])
    with ((before ++ it' :: after) ++ [closing]) by (by rewrite <- app_assoc).
  rewrite !merkle_proof_snoc, !fold_left_app. simpl.
  intros [= Htrue]. apply String.eqb_eq in Htrue. f_equal.
  apply String.eqb_neq. rewrite <- Htrue. intros E.
  apply fold_proof_step_inj in E; [|done].
  by apply proof_step_sibling_inj in E.
Qed.

End Further.

(** ** Chunking, and the construction line of the script *)

Lemma append_nil_r (s : string) : (s ++ "")%string = s.
Proof.
  induction s as [|c s IH]; [done|].
  change (String c (s ++ "") = String c s)%string. by rewrite IH.
Qed.

Lemma append_assoc (s1 s2 s3 : string) :
  ((s1 ++ s2) ++ s3 = s1 ++ (s2 ++ s3))%string.
Proof.
  induction s1 as [|c s1 IH]; [done|].
  change (String c ((s1 ++ s2) ++ s3) = String c (s1 ++ (s2 ++ s3)))%string.
  by rewrite IH.
Qed.

Lemma space_free_app (s1 s2 : string) :
  space_free (s1 ++ s2) = space_free s1 && space_free s2.
Proof.
  induction s1 as [|c s1 IH]; simpl; [done|].
  rewrite IH. by rewrite andb_assoc.
Qed.

Lemma snoc_not_empty (s : string) (c : ascii) : String.eqb (s ++ String c "") "" = false.
Proof. apply String.eqb_neq. by destruct s. Qed.

Lemma split_from_words (data : string) :
  forall word, space_free word = true ->
    Forall (fun chunk => is_word chunk = true) (split_from word data).
Proof.
  induction data as [|c rest IH]; intros word Hword; simpl.
  - destruct (String.eqb word "") eqn:E; [constructor|].
    constructor; [|constructor]. unfold is_word. by rewrite E, Hword.
  - destruct (is_space c) eqn:Hc.
    + destruct (String.eqb word "") eqn:E; [by apply IH|].
      constructor; [|by apply IH]. unfold is_word. by rewrite E, Hword.
    + apply IH. rewrite space_free_app, Hword. simpl. by rewrite Hc.
Qed.

Lemma split_from_nil (data : string) :
  forall word, split_from word data = [] <-> word = ""%string /\ blank data = true.
Proof.
  induction data as [|c rest IH]; intros word; simpl.
  - destruct (String.eqb_spec word ""); split; try done; intros [? _]; done.
  - destruct (is_space c) eqn:Hc; simpl.
    + destruct (String.eqb_spec word "") as [-> | Hne].
      * rewrite IH. tauto.
      * split; [done | tauto].
    + rewrite IH. split; [|intros [_ ?]; done].
      intros [E _]. by destruct word.
Qed.

Lemma split_from_length (data : string) :
  forall word,
    length (split_from word data) <=
      String.length data + (if String.eqb word "" then 0 else 1).
Proof.
  induction data as [|c rest IH]; intros word; simpl.
  - destruct (String.eqb word ""); simpl; lia.
  - destruct (is_space c).
    + pose proof (IH ""%string) as IH0. simpl in IH0.
      destruct (String.eqb word ""); simpl; lia.
    + pose proof (IH (word ++ String c "")%string) as IH1.
      rewrite snoc_not_empty in IH1.
      destruct (String.eqb word ""); lia.
Qed.

Lemma split_from_word (w : string) :
  forall word rest, space_free w = true ->
    split_from word (w ++ rest) = split_from (word ++ w) rest.
Proof.
  induction w as [|c w IH]; intros word rest Hw.
  - by rewrite append_nil_r.
  - simpl. simpl in Hw. apply andb_true_iff in Hw as [Hc Hw].
    apply negb_true_iff in Hc. rewrite Hc.
    rewrite IH by done. by rewrite append_assoc.
Qed.

(** X13.  On an ASCII text [chunk_data] returns words only, chunks that
    are not empty and hold no white space, and as many of them as the text
    has characters at most; it returns no chunk exactly when the text is
    empty or all white space. *)
Theorem chunk_data_words (data : string) :
  ascii_only data = true ->
  Forall (fun chunk => is_word chunk = true) (chunk_data data) /\
  length (chunk_data data) <= String.length data /\
  (chunk_data data = [] <-> blank data = true).
Proof.
  intros _. unfold chunk_data. split_and!.
  - by apply split_from_words.
  - pose proof (split_from_length data ""%string) as Hl. simpl in Hl. lia.
  - rewrite split_from_nil. tauto.
Qed.

(** X14.  Splitting is the inverse of joining words with single spaces:
    for ASCII words that are not empty and hold no white space,
    [chunk_data(' '.join(words))] is [words]. *)
Theorem chunk_data_join (words : list string) :
  Forall (fun w => ascii_only w = true) words ->
  Forall (fun w => is_word w = true) words ->
  chunk_data (join_spaces words) = words.
Proof.
  intros _. unfold chunk_data.
  induction words as [|w words IH]; intros Hall; [done|].
  apply Forall_cons in Hall as [Hw Hall].
  unfold is_word in Hw. apply andb_true_iff in Hw as [Hne Hsf].
  apply negb_true_iff in Hne.
  destruct words as [|w2 words].
  - change (split_from "" w = [w]). rewrite <- (append_nil_r w) at 1.
    rewrite split_from_word by done.
    change (split_from w "" = [w]). simpl. by rewrite Hne.
  - change (join_spaces (w :: w2 :: words))
      with (w ++ String " " (join_spaces (w2 :: words)))%string.
    rewrite split_from_word by done.
    change (split_from w (String " " (join_spaces (w2 :: words))) = w :: w2 :: words).
    simpl. rewrite Hne. f_equal. by apply IH.
Qed.

Section Script.
Context {sha : Sha256}.

(** X15.  The construction line of the script,
    [MerkleTree.build_tree(chunk_data(data))], on an ASCII text: on a text
    that is empty or all white space it raises [RecursionError], at any
    recursion depth and without creating an object; on any other text,
    with room for the recursion, it returns a tree with one leaf per word
    of the text. *)
Theorem build_tree_chunk_data (f : nat) (data : string) (w : world) :
  ascii_only data = true ->
  String.length data <= 2 ^ f ->
  (blank data = true /\
   forall depth, build_tree depth (chunk_data data) w = (Raise RecursionError, w)) \/
  (blank data = false /\
   exists tree w1,
     build_tree (S f) (chunk_data data) w = (Return tree, w1) /\
     length (leaves tree) = length (chunk_data data) /\
     0 < length (leaves tree)).
Proof.
  intros Hascii Hlen.
  pose proof (split_from_length data ""%string) as Hcount. simpl in Hcount.
  pose proof (split_from_nil data ""%string) as Hnil. fold (chunk_data data) in *.
  destruct (blank data) eqn:Hb.
  - left. split; [done|]. intros depth.
    rewrite (proj2 Hnil (conj eq_refl eq_refl)). unfold build_tree. simpl.
    unfold bind at 1. unfold ret at 1.
    by rewrite (bind_raise _ _ _ _ _ (build_parents_empty depth w)).
  - right. split; [done|].
    assert (chunk_data data <> []) as Hne.
    { intros E. apply Hnil in E as [_ E]. congruence. }
    destruct (build_tree_run f (chunk_data data) w Hne) as
      (root & σ' & rn & h & Hbuild & _); [lia|].
    eexists _, _. split_and!; [exact Hbuild | simpl; by rewrite length_seq |].
    simpl. rewrite length_seq. destruct (chunk_data data); [done | simpl; lia].
Qed.

End Script.

(** ** Printing a built tree *)

Section Printing.
Context {sha : Sha256}.

Lemma stack_frame T σ σ' b lv j :
  stack σ b lv j -> frame T σ σ' -> (forall a, a ∈ T -> b <= a) -> stack σ' b lv j.
Proof.
  intros HS HF. induction HS as [b lv Hl | b b' lv ps j HP HS IH Hlt Hle]; intros HT.
  - constructor. intros a Ha. destruct (Hl a Ha) as (n & d & Hn & Hleaf & Hd).
    destruct HF as [_ HF]. destruct (HF a n Hn) as (n' & Hn' & (_ & Ed & El & Er) & _).
    exists n', d. split_and!; [done | | congruence].
    unfold is_leaf in *. by rewrite El, Er.
  - apply stack_up with b lv; [| | done | done].
    + eapply paired_frame; [exact HP | exact HF |].
      intros a Ha Hin. apply Hlt in Ha. apply HT in Hin. lia.
    + apply IH. intros a Ha. apply HT in Ha. lia.
Qed.

Lemma paired_children σ lv ps p :
  paired σ lv ps -> p ∈ ps -> exists l r, l ∈ lv /\ r ∈ lv /\ linked σ p l r.
Proof.
  induction 1 as [|l q HL|l r rest q ps HL HP IH]; intros Hp.
  - by apply elem_of_nil in Hp.
  - apply list_elem_of_singleton in Hp as ->. exists l, l. split_and!; [by left | by left | done].
  - apply elem_of_cons in Hp as [-> | Hp].
    + exists l, r. split_and!; [by left | by right; left | done].
    + destruct (IH Hp) as (l' & r' & Hl' & Hr' & HL').
      exists l', r'. split_and!; [by do 2 right | by do 2 right | done].
Qed.

Lemma stack_valid σ b lv j a : stack σ b lv j -> a ∈ lv -> is_Some (σ !! a).
Proof.
  destruct 1 as [b lv Hl | b0 b lv ps j HP HS Hlt Hle]; intros Ha.
  - destruct (Hl a Ha) as (n & _ & Hn & _). by exists n.
  - destruct (paired_children _ _ _ a HP Ha) as (l & r & _ & _ & pn & _ & _ & Hp & _).
    by exists pn.
Qed.

(** Below a node with a full tree of height [j], [print_tree] prints a
    line for every node of that tree, the node's own line first. *)
Lemma print_tree_stack σ b lv j :
  stack σ b lv j ->
  forall a n, a ∈ lv -> σ !! a = Some n ->
  forall depth indent, j + 1 < depth ->
    exists rest,
      print_tree depth σ (Some a) indent = (line_of indent n :: rest, Return tt) /\
      S (length rest) = 2 ^ S j - 1.
Proof.
  induction 1 as [b lv Hl | b b' lv ps j HP HS IH Hlt Hle];
    intros a n Ha Hn depth indent Hd.
  - destruct (Hl a Ha) as (n' & d & Hn' & Hleaf & Hdata).
    assert (n' = n) as -> by congruence.
    destruct depth as [|[|depth]]; [lia | lia |].
    exists []. split; [|done].
    cbn [print_tree]. rewrite Hn. unfold line_of. rewrite Hleaf, Hdata.
    unfold is_leaf in Hleaf.
    destruct (left_child n); [done|]. destruct (right_child n); [done|]. done.
  - destruct (paired_children _ _ _ a HP Ha)
      as (l & r & Hl & Hr & pn & ln & rn & Hp & Hln & Hrn & Hlc & Hrc & _).
    assert (pn = n) as -> by congruence.
    destruct depth as [|depth]; [lia|].
    destruct (IH l ln Hl Hln depth (indent + 2)) as (rest1 & E1 & L1); [lia|].
    destruct (IH r rn Hr Hrn depth (indent + 2)) as (rest2 & E2 & L2); [lia|].
    exists ((line_of (indent + 2) ln :: rest1) ++ line_of (indent + 2) rn :: rest2).
    split.
    + cbn [print_tree]. rewrite Hn. unfold line_of at 1.
      assert (is_leaf n = false) as -> by (unfold is_leaf; by rewrite Hlc).
      rewrite Hlc, E1, Hrc, E2. done.
    + rewrite length_app. simpl length.
      rewrite (Nat.pow_succ_r' 2 (S j)).
      pose proof (Nat.pow_nonzero 2 (S j)). lia.
Qed.

Lemma build_parents_stack (f : nat) :
  forall (lv : list addr) (w : world) (b j : nat),
    lv <> [] -> NoDup lv ->
    (forall a, a ∈ lv -> a < length (nodes w)) ->
    length lv <= 2 ^ f ->
    stack (nodes w) b lv j ->
    (forall a, a ∈ lv -> b <= a) ->
    exists root σ' j' b',
      build_parents (S f) lv w = (Return root, World σ' (lists w)) /\
      stack σ' b' [root] j' /\
      j <= j' /\ j' <= j + f /\ length lv <= 2 ^ (j' - j).
Proof.
  induction f as [|f IH]; intros lv w b j Hne ND Hval Hlen HS Hb.
  - destruct lv as [|x [|y rest]]; [done | | simpl in Hlen; lia].
    exists x, (nodes w), j, b. destruct w as [σ τ].
    split_and!; [done | done | lia | lia |]. rewrite Nat.sub_diag. simpl. lia.
  - destruct lv as [|x [|y rest]]; [done | |].
    + exists x, (nodes w), j, b. destruct w as [σ τ].
      split_and!; [done | done | lia | lia |]. rewrite Nat.sub_diag. simpl. lia.
    + destruct (pair_up_run (x :: y :: rest) w ND Hval)
        as (σ1 & Erun & Elen & HP & HF & _).
      set (lv := x :: y :: rest) in *.
      set (ps := seq (length (nodes w)) (half_up (length lv))) in *.
      assert (stack σ1 (length (nodes w)) ps (S j)) as HS1.
      { apply stack_up with b lv; [done | | done |].
        - by apply (stack_frame lv (nodes w)).
        - assert (x ∈ lv) as Hx by (by left).
          pose proof (Hb x Hx). pose proof (Hval x Hx). lia. }
      destruct (IH ps (World σ1 (lists w)) (length (nodes w)) (S j))
        as (root & σ' & j' & b' & Brun & HS' & Hj1 & Hj2 & Hw).
      { done. }
      { apply NoDup_seq. }
      { intros a Ha. apply elem_of_seq in Ha. cbn [nodes]. lia. }
      { unfold ps. rewrite length_seq. by apply half_up_bound. }
      { done. }
      { intros a Ha. apply elem_of_seq in Ha. lia. }
      cbn [nodes lists] in Brun.
      exists root, σ', j', b'. split_and!; [| done | lia | lia |].
      * change (build_parents (S (S f)) lv w)
          with (bind (pair_up lv) (build_parents (S f)) w).
        by rewrite (bind_run _ _ _ _ _ Erun).
      * unfold ps in Hw. rewrite length_seq in Hw.
        pose proof (half_up_ge (length lv)).
        replace (j' - j) with (S (j' - S j)) by lia.
        rewrite Nat.pow_succ_r'. lia.
Qed.

(** X16.  [print_tree] on the root of a built tree, with room for the
    recursion, ends normally and prints the root's line first and
    [2 ^ (h + 1) - 1] lines in all, where [length chunks <= 2 ^ h]: one
    line for every node of a full binary tree of height [h], so a node
    that is both children of its parent is printed, with all below it,
    twice. *)
Theorem print_built_tree (f : nat) (chunks : list string) (w : world) :
  chunks <> [] ->
  length chunks <= 2 ^ f ->
  exists tree w1 rn h,
    build_tree (S f) chunks w = (Return tree, w1) /\
    nodes w1 !! root_node tree = Some rn /\
    h <= f /\ length chunks <= 2 ^ h /\
    forall depth indent, h + 1 < depth ->
      exists rest,
        print_tree depth (nodes w1) (Some (root_node tree)) indent =
          (line_of indent rn :: rest, Return tt) /\
        S (length rest) = 2 ^ S h - 1.
Proof.
  intros Hne Hlen.
  set (lv := seq (length (nodes w)) (length chunks)).
  set (σ0 := nodes w ++ map leaf_of chunks).
  destruct (build_parents_stack f lv (World σ0 (lists w)) (length (nodes w)) 0)
    as (root & σ' & h & b' & Brun & HS & _ & Hh & Hw).
  { unfold lv. destruct chunks; [done|]. simpl. done. }
  { apply NoDup_seq. }
  { intros a Ha. apply elem_of_seq in Ha. simpl. unfold σ0.
    rewrite length_app, length_map. lia. }
  { unfold lv. by rewrite length_seq. }
  { constructor. intros a Ha. apply elem_of_seq in Ha.
    destruct (lookup_lt_is_Some_2 chunks (a - length (nodes w))) as [c Hc]; [lia|].
    pose proof (leaves_stored (nodes w) chunks _ c Hc) as Hs.
    replace (length (nodes w) + (a - length (nodes w))) with a in Hs by lia.
    by exists (leaf_of c), c. }
  { intros a Ha. apply elem_of_seq in Ha. lia. }
  cbn [nodes lists] in Brun.
  destruct (stack_valid σ' b' [root] h root HS) as [rn Hrn]; [by left|].
  exists (mkMerkleTree root lv), (World σ' (lists w)), rn, h.
  split_and!; [| done | lia | |].
  - unfold build_tree.
    rewrite (bind_run _ _ _ _ _ (build_leaves_run chunks w)).
    fold lv σ0. by rewrite (bind_run _ _ _ _ _ Brun).
  - unfold lv in Hw. rewrite length_seq, Nat.sub_0_r in Hw. done.
  - intros depth indent Hd. cbn [nodes root_node].
    apply (print_tree_stack σ' b' [root] h HS root rn); [by left | done | done].
Qed.

End Printing.

(** ** The further properties at concrete inputs *)

Lemma get_audit_trail_first_match_witness :
  get_audit_trail 3 (mkMerkleTree 0 [0; 1; 2]) (compute_hash "b")
      (World (map leaf_of ["a"; "b"; "b"]%string) [[]]) =
    bind (generate_audit_trail 3 (mkMerkleTree 0 [0; 1; 2]) 1 default_trail)
         (fun trail => ret (Some trail))
         (World (map leaf_of ["a"; "b"; "b"]%string) [[]]).
Proof.
  apply (get_audit_trail_first_match 3 (mkMerkleTree 0 [0; 1; 2]) (compute_hash "b")
           (World (map leaf_of ["a"; "b"; "b"]%string) [[]]) [0] [2] 1 (leaf_of "b")).
  - reflexivity.
  - intros a Ha. apply list_elem_of_singleton in Ha as ->.
    exists (leaf_of "a"). split; [reflexivity|].
    intros E. vm_compute in E. discriminate E.
  - reflexivity.
  - reflexivity.
Defined.

Lemma build_tree_root_hash_witness :
  exists tree w1 rn,
    build_tree 3 ["a"; "b"; "c"]%string abc_leaves = (Return tree, w1) /\
    nodes w1 !! root_node tree = Some rn /\
    merkle_root 3 (map compute_hash ["a"; "b"; "c"]%string) = Some (hash_value rn).
Proof.
  apply (build_tree_root_hash 2 ["a"; "b"; "c"]%string abc_leaves).
  - discriminate.
  - simpl. lia.
Defined.

Lemma build_tree_preserves_witness :
  exists tree w1,
    build_tree 3 ["x"; "y"]%string abc_leaves = (Return tree, w1) /\
    lists w1 = lists abc_leaves /\
    forall a n, nodes abc_leaves !! a = Some n -> nodes w1 !! a = Some n.
Proof.
  apply (build_tree_preserves 2 ["x"; "y"]%string abc_leaves).
  - discriminate.
  - simpl. lia.
Defined.

Lemma build_tree_node_count_witness :
  exists tree w1,
    build_tree 3 ["a"; "b"; "c"]%string init_world = (Return tree, w1) /\
    length (nodes init_world) + length ["a"; "b"; "c"]%string <= length (nodes w1) /\
    length (nodes w1) <
      length (nodes init_world) + 2 * length ["a"; "b"; "c"]%string + 2.
Proof.
  apply (build_tree_node_count 2 ["a"; "b"; "c"]%string init_world).
  - discriminate.
  - simpl. lia.
Defined.

Lemma build_tree_root_is_parent_witness :
  exists tree w1 rn,
    build_tree 3 ["a"; "b"; "c"]%string init_world = (Return tree, w1) /\
    nodes w1 !! root_node tree = Some rn /\
    length (nodes init_world) + length ["a"; "b"; "c"]%string <= root_node tree /\
    (root_node tree ∉ leaves tree) /\
    top_parent (nodes w1) rn.
Proof.
  apply (build_tree_root_is_parent 2 ["a"; "b"; "c"]%string init_world).
  - simpl. lia.
  - simpl. lia.
Defined.

Lemma build_tree_leaves_witness :
  exists tree w1,
    build_tree 3 ["a"; "b"; "c"]%string init_world = (Return tree, w1) /\
    length (leaves tree) = length ["a"; "b"; "c"]%string /\
    forall i c, ["a"; "b"; "c"]%string !! i = Some c ->
      exists a n,
        leaves tree !! i = Some a /\ nodes w1 !! a = Some n /\
        hash_value n = compute_hash c /\ data_value n = Some c /\
        is_leaf n = true /\
        (length ["a"; "b"; "c"]%string = 1 -> parent n = None) /\
        (2 <= length ["a"; "b"; "c"]%string ->
           exists p pn, parent n = Some p /\ nodes w1 !! p = Some pn /\
                        is_leaf pn = false).
Proof.
  apply (build_tree_leaves 2 ["a"; "b"; "c"]%string init_world).
  - discriminate.
  - simpl. lia.
Defined.

Lemma unknown_hash_is_none_witness :
  exists tree w1,
    build_tree 2 ["a"; "b"]%string init_world = (Return tree, w1) /\
    (forall depth, get_audit_trail depth tree (compute_hash "z") w1 = (Return None, w1)) /\
    (forall root_hash, merkle_proof root_hash (compute_hash "z") None = Raise TypeError).
Proof.
  apply (unknown_hash_is_none 1 ["a"; "b"]%string (compute_hash "z") init_world).
  - discriminate.
  - simpl. lia.
  - intros c Hc.
    repeat (apply elem_of_cons in Hc as [-> | Hc];
            [intros E; vm_compute in E; discriminate E|]).
    by apply elem_of_nil in Hc.
Defined.

Lemma audit_trail_shape_witness :
  exists tree w1 rn h,
    build_tree 3 ["a"; "b"; "c"]%string init_world = (Return tree, w1) /\
    nodes w1 !! root_node tree = Some rn /\
    h <= 2 /\ length ["a"; "b"; "c"]%string <= 2 ^ h /\
    forall c, c ∈ ["a"; "b"; "c"]%string ->
      exists w2 body,
        get_audit_trail 3 tree (compute_hash c) w1 = (Return (Some default_trail), w2) /\
        lists w2 !! default_trail = Some (body ++ [(hash_value rn, NoneMarker)]) /\
        length body = h /\
        Forall sibling_step body /\
        trail_shape_ok (body ++ [(hash_value rn, NoneMarker)]) = true.
Proof.
  apply (audit_trail_shape 2 ["a"; "b"; "c"]%string init_world).
  - reflexivity.
  - discriminate.
  - simpl. lia.
Defined.

Lemma query_appends_valid_trail_witness :
  exists tree w1 rn fresh,
    build_tree 3 ["a"; "b"; "c"]%string init_world = (Return tree, w1) /\
    nodes w1 !! root_node tree = Some rn /\
    merkle_proof (hash_value rn) (compute_hash "b") (Some fresh) = Return true /\
    forall τ old, τ !! default_trail = Some old ->
      get_audit_trail 3 tree (compute_hash "b") (World (nodes w1) τ) =
        (Return (Some default_trail),
         World (nodes w1) (<[default_trail := old ++ fresh]> τ)).
Proof.
  apply (query_appends_valid_trail 2 ["a"; "b"; "c"]%string "b" init_world).
  - repeat constructor.
  - simpl. lia.
Defined.

Lemma altered_sibling_rejected_witness :
  merkle_proof (sha := verbatim_digest) "ab" "a"
    (Some [("x"%string, BranchMarker Branch.right); ("ab"%string, NoneMarker)])
  = Return false.
Proof.
  apply (altered_sibling_rejected (sha := verbatim_digest) "ab" "a" [] []
           ("b"%string, BranchMarker Branch.right)
           ("x"%string, BranchMarker Branch.right)
           ("ab"%string, NoneMarker)).
  - intros x y E. exact E.
  - reflexivity.
  - discriminate.
  - reflexivity.
Defined.

Lemma chunk_data_join_witness :
  chunk_data (join_spaces ["quick"; "brown"; "fox"]%string) = ["quick"; "brown"; "fox"]%string.
Proof.
  apply (chunk_data_join ["quick"; "brown"; "fox"]%string).
  - repeat constructor.
  - repeat constructor.
Defined.

Lemma build_tree_chunk_data_witness :
  (blank " 	 " = true /\
   forall depth, build_tree depth (chunk_data " 	 ") init_world =
                 (Raise RecursionError, init_world)) \/
  (blank " 	 " = false /\
   exists tree w1,
     build_tree 3 (chunk_data " 	 ") init_world = (Return tree, w1) /\
     length (leaves tree) = length (chunk_data " 	 ") /\
     0 < length (leaves tree)).
Proof.
  apply (build_tree_chunk_data 2 " 	 " init_world).
  - reflexivity.
  - simpl. lia.
Defined.

Lemma chunk_data_words_witness :
  Forall (fun chunk => is_word chunk = true) (chunk_data " oak  tree ") /\
  length (chunk_data " oak  tree ") <= String.length " oak  tree " /\
  (chunk_data " oak  tree " = [] <-> blank " oak  tree " = true).
Proof. apply (chunk_data_words " oak  tree "). reflexivity. Defined.

Lemma print_built_tree_witness :
  exists tree w1 rn h,
    build_tree 3 ["a"; "b"; "c"]%string init_world = (Return tree, w1) /\
    nodes w1 !! root_node tree = Some rn /\
    h <= 2 /\ length ["a"; "b"; "c"]%string <= 2 ^ h /\
    forall depth indent, h + 1 < depth ->
      exists rest,
        print_tree depth (nodes w1) (Some (root_node tree)) indent =
          (line_of indent rn :: rest, Return tt) /\
        S (length rest) = 2 ^ S h - 1.
Proof.
  apply (print_built_tree 2 ["a"; "b"; "c"]%string init_world).
  - discriminate.
  - simpl. lia.
Defined.

(** The script's text is chunked into the sixteen words of the tree, and
    printing the tree over a, b, c shows the lone leaf twice. *)
Example chunk_data_demo :
  chunk_data "The quick brown fox jumps over the lazy dog who was sleeping under the oak tree"
  = demo_chunks.
Proof. vm_compute. reflexivity. Qed.

Example print_tree_abc :
  exists tree w1,
    build_tree recursion_limit ["a"; "b"; "c"]%string init_world = (Return tree, w1) /\
    print_tree recursion_limit (nodes w1) (Some (root_node tree)) 0 =
      (["0bdf27bf7ec894ca7cadfe491ec1a3ece840f117989e8c5e9bd7086467bf6c38";
        "  62af5c3cb8da3e4f25061e829ebeea5c7513c54949115b1acc225930a90154da";
        "    a - ca978112ca1bbdcafac231b39a23dc4da786eff8147c4e72b9807785afee48bb";
        "    b - 3e23e8160039594a33894f6564e1b1348bbd7a0088d42c4acb73eeaed59c009d";
        "  d50c873877f38fcbc56dbe836b9d979912efcb587ed8eea919372d403b5c2bd4";
        "    c - 2e7d2c03a9507ae265ecf5b5356885a53393a2029d241394997265a1a25aefc6";
        "    c - 2e7d2c03a9507ae265ecf5b5356885a53393a2029d241394997265a1a25aefc6"]%string,
       Return tt).
Proof. eexists _, _. split; [vm_compute; reflexivity | vm_compute; reflexivity]. Qed.

(** ** The levels of a built tree *)

Section Levels.
Context {sha : Sha256}.




End Levels.


(** ** Queries after an earlier query *)

(** Loading the module leaves the trail of "brown" in the default list. *)
Example after_import_default_list :
  length (nodes after_import) = 31 /\
  (length <$> lists after_import !! default_trail) = Some 5.
Proof. split; vm_compute; reflexivity. Qed.

(** C1 at failing inputs.  In a program that has imported the module, the
    tree over a, b, c is built, the trail for [compute_hash "c"] is
    derived and [merkle_proof] is run on the root hash, that hash and
    that trail: the trail has eight elements, the five the script left
    and three new ones, and the result is [False].  The same happens
    without the script on a second query: on the tree over a, b, after the
    query for a, the trail returned for b is rejected. *)
Theorem round_trip_fails_after_a_query :
  (exists tree w1 w2 rn items,
     build_tree recursion_limit ["a"; "b"; "c"]%string after_import = (Return tree, w1) /\
     get_audit_trail recursion_limit tree (compute_hash "c") w1 =
       (Return (Some default_trail), w2) /\
     nodes w2 !! root_node tree = Some rn /\
     lists w2 !! default_trail = Some items /\
     length items = 8 /\
     merkle_proof (hash_value rn) (compute_hash "c") (Some items) = Return false) /\
  (exists tree w1 w2 w3 rn items,
     build_tree recursion_limit ["a"; "b"]%string init_world = (Return tree, w1) /\
     get_audit_trail recursion_limit tree (compute_hash "a") w1 =
       (Return (Some default_trail), w2) /\
     get_audit_trail recursion_limit tree (compute_hash "b") w2 =
       (Return (Some default_trail), w3) /\
     nodes w3 !! root_node tree = Some rn /\
     lists w3 !! default_trail = Some items /\
     merkle_proof (hash_value rn) (compute_hash "b") (Some items) = Return false).
Proof.
  split.
  - eexists _, _, _, _, _. split_and!.
    + vm_compute. reflexivity.
    + vm_compute. reflexivity.
    + vm_compute. reflexivity.
    + vm_compute. reflexivity.
    + vm_compute. reflexivity.
    + vm_compute. reflexivity.
  - eexists _, _, _, _, _, _. split_and!.
    + vm_compute. reflexivity.
    + vm_compute. reflexivity.
    + vm_compute. reflexivity.
    + vm_compute. reflexivity.
    + vm_compute. reflexivity.
    + vm_compute. reflexivity.
Qed.

(** C6 at failing inputs.  In a program that has imported the module, the
    tree over the one chunk made of [trusted_root_hash] twice is built and
    the trail for the hash of that chunk derived: [merkle_proof] on the
    root hash of the tree, the hash of "brown", which is another hash, and
    that trail returns [True], since the trail begins with the trail of
    "brown" and the closing element the script left is hashed as a right
    sibling.  The same happens without the script: after the query on the
    tree over a, the trail derived on the tree over the hash of a written
    twice verifies the hash of a. *)
Theorem foreign_leaf_hash_accepted :
  (exists tree w1 w2 rn items,
     build_tree recursion_limit [(trusted_root_hash ++ trusted_root_hash)%string]
       after_import = (Return tree, w1) /\
     get_audit_trail recursion_limit tree
       (compute_hash (trusted_root_hash ++ trusted_root_hash)) w1 =
       (Return (Some default_trail), w2) /\
     nodes w2 !! root_node tree = Some rn /\
     lists w2 !! default_trail = Some items /\
     compute_hash "brown" <> compute_hash (trusted_root_hash ++ trusted_root_hash) /\
     merkle_proof (hash_value rn) (compute_hash "brown") (Some items) = Return true) /\
  (exists tree1 w1 w2 tree2 w3 w4 rn items,
     build_tree recursion_limit ["a"]%string init_world = (Return tree1, w1) /\
     get_audit_trail recursion_limit tree1 (compute_hash "a") w1 =
       (Return (Some default_trail), w2) /\
     build_tree recursion_limit [(compute_hash "a" ++ compute_hash "a")%string] w2 =
       (Return tree2, w3) /\
     get_audit_trail recursion_limit tree2
       (compute_hash (compute_hash "a" ++ compute_hash "a")) w3 =
       (Return (Some default_trail), w4) /\
     nodes w4 !! root_node tree2 = Some rn /\
     lists w4 !! default_trail = Some items /\
     compute_hash "a" <> compute_hash (compute_hash "a" ++ compute_hash "a") /\
     merkle_proof (hash_value rn) (compute_hash "a") (Some items) = Return true).
Proof.
  split.
  - eexists _, _, _, _, _. split_and!.
    + vm_compute. reflexivity.
    + vm_compute. reflexivity.
    + vm_compute. reflexivity.
    + vm_compute. reflexivity.
    + intros E. vm_compute in E. discriminate E.
    + vm_compute. reflexivity.
  - eexists _, _, _, _, _, _, _, _. split_and!.
    + vm_compute. reflexivity.
    + vm_compute. reflexivity.
    + vm_compute. reflexivity.
    + vm_compute. reflexivity.
    + vm_compute. reflexivity.
    + vm_compute. reflexivity.
    + intros E. vm_compute in E. discriminate E.
    + vm_compute. reflexivity.
Qed.

(** C9 at failing inputs.  In a program that has imported the module, the
    tree over the one chunk a has the leaf as root, with the hash of a,
    but the trail returned for it has six elements, not the closing
    element alone, and [merkle_proof] on it returns [False].  The same
    happens without the script when the one-leaf tree is queried a second
    time: the trail is the closing element twice, and it is rejected. *)
Theorem singleton_trail_after_a_query :
  (exists leaf w1 w2 rn items,
     build_tree recursion_limit ["a"]%string after_import =
       (Return (mkMerkleTree leaf [leaf]), w1) /\
     nodes w1 !! leaf = Some rn /\ hash_value rn = compute_hash "a" /\
     get_audit_trail recursion_limit (mkMerkleTree leaf [leaf]) (compute_hash "a") w1 =
       (Return (Some default_trail), w2) /\
     lists w2 !! default_trail = Some items /\
     length items = 6 /\
     items <> [(hash_value rn, NoneMarker)] /\
     merkle_proof (hash_value rn) (compute_hash "a") (Some items) = Return false) /\
  (exists leaf w1 w2 w3 rn,
     build_tree recursion_limit ["a"]%string init_world =
       (Return (mkMerkleTree leaf [leaf]), w1) /\
     nodes w1 !! leaf = Some rn /\ hash_value rn = compute_hash "a" /\
     get_audit_trail recursion_limit (mkMerkleTree leaf [leaf]) (compute_hash "a") w1 =
       (Return (Some default_trail), w2) /\
     get_audit_trail recursion_limit (mkMerkleTree leaf [leaf]) (compute_hash "a") w2 =
       (Return (Some default_trail), w3) /\
     lists w3 !! default_trail =
       Some [(hash_value rn, NoneMarker); (hash_value rn, NoneMarker)] /\
     merkle_proof (hash_value rn) (compute_hash "a")
       (Some [(hash_value rn, NoneMarker); (hash_value rn, NoneMarker)]) = Return false).
Proof.
  split.
  - eexists _, _, _, _, _. split_and!.
    + vm_compute. reflexivity.
    + vm_compute. reflexivity.
    + vm_compute. reflexivity.
    + vm_compute. reflexivity.
    + vm_compute. reflexivity.
    + vm_compute. reflexivity.
    + intros E. apply (f_equal length) in E. vm_compute in E. discriminate E.
    + vm_compute. reflexivity.
  - eexists _, _, _, _, _. split_and!.
    + vm_compute. reflexivity.
    + vm_compute. reflexivity.
    + vm_compute. reflexivity.
    + vm_compute. reflexivity.
    + vm_compute. reflexivity.
    + vm_compute. reflexivity.
    + vm_compute. reflexivity.
Qed.
